(** * Feature-engineering helpers of [libs/feature_extractor.py]

    A shallow embedding of the [FeatureExtractor] class and of the small
    part of pandas it relies on, followed by the properties of the
    transforms.  A pandas [DataFrame] is kept row by row: a header of
    column labels and, for every record, its index label and its cells in
    header order.  Python exceptions are the [Raise] results of an error
    monad.  [get_harmonic_tuple] computes with numpy's floating-point
    cosine and sine and is left out. *)

From Stdlib Require Import ZArith QArith Qcanon Ascii String Lia.
From stdpp Require Import base tactics option strings numbers list.

Local Open Scope string_scope.
Local Open Scope list_scope.
Local Open Scope Z_scope.

(** ** Cells, labels and exceptions *)

(** A pandas [Timestamp], down to the fields the module reads. *)
Record timestamp := mkTimestamp {
  ts_year : Z; ts_month : Z; ts_day : Z; ts_hour : Z; ts_minute : Z; ts_second : Z
}.

(** The Python objects a cell, an index label or a column label holds.
    Numbers are the integers; [VNaN] is the missing value of pandas, the
    float [NaN] ([NaT] in a datetime column).  A [None] kept as such in a
    column of objects is not a cell of this model. *)
Inductive value :=
| VInt (z : Z)
| VStr (s : string)
| VTime (t : timestamp)
| VDate (y m d : Z)
| VNaN.

Global Instance timestamp_eq_dec : EqDecision timestamp.
Proof. solve_decision. Defined.

Global Instance value_eq_dec : EqDecision value.
Proof. solve_decision. Defined.

Inductive exn :=
| KeyError | AttributeError | TypeError | ValueError | ZeroDivisionError | IndexError.

Inductive result (A : Type) :=
| Ok (a : A)
| Raise (e : exn).
Arguments Ok {A} a.
Arguments Raise {A} e.

Global Instance result_ret : MRet result := @Ok.
Global Instance result_bind : MBind result := λ A B f m,
  match m with Ok a => f a | Raise e => Raise e end.

Definition is_ok {A} (r : result A) : bool :=
  match r with Ok _ => true | Raise _ => false end.

(** [mapM] of the error monad: the first failing element decides. *)
Fixpoint traverse {A B} (f : A → result B) (l : list A) : result (list B) :=
  match l with
  | [] => Ok []
  | x :: l' => y ← f x; ys ← traverse f l'; Ok (y :: ys)
  end.

(** Python's [==] on cells: [NaN] equals nothing, itself included. *)
Definition py_eqb (a b : value) : bool :=
  match a, b with
  | VNaN, _ | _, VNaN => false
  | _, _ => bool_decide (a = b)
  end.

Definition isnull (v : value) : bool :=
  match v with VNaN => true | _ => false end.

(** ** Data frames *)

Abbreviation row := (list value).

Record DataFrame := mkDF {
  columns : list value;
  records : list (value * row)
}.

Definition nrows (df : DataFrame) : nat := length (records df).

(** Every record has one cell per column. *)
Definition wf (df : DataFrame) : Prop :=
  Forall (λ r, length r.2 = length (columns df)) (records df).

Fixpoint col_pos (c : value) (cols : list value) : option nat :=
  match cols with
  | [] => None
  | c' :: cs => if decide (c' = c) then Some 0%nat else S <$> col_pos c cs
  end.

Definition cell (j : nat) (r : value * row) : value := nth j r.2 VNaN.

(** [df[c]]: the cells of column [c], or [KeyError].  Column labels are
    expected to be distinct: under a repeated label pandas answers with a
    frame of all the columns of that name, which this model does not
    follow (it takes the first); the statements on which the difference
    bears ask for a header without repetition. *)
Definition getcol (df : DataFrame) (c : value) : result (list value) :=
  match col_pos c (columns df) with
  | None => Raise KeyError
  | Some j => Ok (map (cell j) (records df))
  end.

(** [df[c] = vals]: replaces column [c] where it exists and appends it
    otherwise; a sequence of another length is a [ValueError]. *)
Definition setcol (df : DataFrame) (c : value) (vals : list value) : result DataFrame :=
  if negb (length vals =? nrows df)%nat then Raise ValueError
  else match col_pos c (columns df) with
       | Some j =>
           Ok (mkDF (columns df)
                 (zip_with (λ r v, (r.1, <[j := v]> r.2)) (records df) vals))
       | None =>
           Ok (mkDF (columns df ++ [c])
                 (zip_with (λ r v, (r.1, r.2 ++ [v])) (records df) vals))
       end.

(** [df[mask]] with a boolean Series over the same index: the records at
    the positions where the mask is [True].  Every mask of this module is
    computed from the frame it selects from and has its length. *)
Definition select_mask (mask : list bool) (df : DataFrame) : DataFrame :=
  mkDF (columns df) (map snd (List.filter fst (combine mask (records df)))).

(** A Python [dict] used by [Series.map]. *)
Definition dict := list (value * value).

Fixpoint dict_get (d : dict) (k : value) : option value :=
  match d with
  | [] => None
  | (k', v) :: d' => if decide (k' = k) then Some v else dict_get d' k
  end.

(** [Series.map(d)]: keys the dict lacks become missing. *)
Definition series_map (d : dict) (s : list value) : list value :=
  map (λ v, default VNaN (dict_get d v)) s.

(** ** [make_seasons_col] *)

Definition season_mapper : dict :=
  [ (VInt 1, VInt 1); (VInt 2, VInt 1); (VInt 3, VInt 2); (VInt 4, VInt 2);
    (VInt 5, VInt 2); (VInt 6, VInt 3); (VInt 7, VInt 3); (VInt 8, VInt 3);
    (VInt 9, VInt 4); (VInt 10, VInt 4); (VInt 11, VInt 4); (VInt 12, VInt 1) ].

Definition make_seasons_col (df : DataFrame) (column : value) : result DataFrame :=
  months ← getcol df column;
  df1 ← setcol df (VStr "Season") months;
  season ← getcol df1 (VStr "Season");
  setcol df1 (VStr "Season") (series_map season_mapper season).



(** ** [make_weekday_to_num] *)

Definition week_day_mapper : dict :=
  [ (VStr "Monday", VInt 0); (VStr "Tuesday", VInt 1); (VStr "Wednesday", VInt 2);
    (VStr "Thursday", VInt 3); (VStr "Friday", VInt 4); (VStr "Saturday", VInt 5);
    (VStr "Sunday", VInt 6) ].

(** [Series.astype("int64")] on the outcome of a [map] with integer
    values: an integer stays, a missing value cannot be cast
    ([IntCastingNaNError], a [ValueError]).  The mapper produces no other
    kind of cell; they are rejected as well. *)
Definition cast_int64 (v : value) : result value :=
  match v with
  | VInt z => Ok (VInt z)
  | VNaN => Raise ValueError
  | _ => Raise TypeError
  end.

Definition astype_int64 (s : list value) : result (list value) :=
  traverse cast_int64 s.

Definition make_weekday_to_num (df : DataFrame) (column : value) : result DataFrame :=
  days ← getcol df column;
  nums ← astype_int64 (series_map week_day_mapper days);
  setcol df (VStr "weekdayNumerical") nums.

(** The number a weekday cell is mapped to, missing without an entry. *)
Definition weekday_cell (w : value) : value :=
  default VNaN (dict_get week_day_mapper w).

(** The seven names in calendar order, as the specification lists them. *)
Definition weekday_names : list string :=
  [ "Monday"; "Tuesday"; "Wednesday"; "Thursday"; "Friday"; "Saturday"; "Sunday" ].

(** ** [make_address_encoding_col] *)

(** [d in r] on Python strings. *)
Fixpoint substringb (d r : string) : bool :=
  String.prefix d r ||
  match r with
  | EmptyString => false
  | String _ r' => substringb d r'
  end.

(** [lambda record: any([delimeter in record])]; [in] needs a string on
    its right. *)
Definition delimeter_in (delimeter : string) (record : value) : result bool :=
  match record with
  | VStr r => Ok (substringb delimeter r)
  | _ => Raise TypeError
  end.

Definition bool_to_int (b : bool) : value := VInt (if b then 1 else 0).

Definition make_address_encoding_col (df : DataFrame) (delimeter : string)
    (column : value) : result DataFrame :=
  col ← getcol df column;
  address ← traverse (delimeter_in delimeter) col;
  setcol df (VStr "address_encoded") (map bool_to_int address).

(** ** [make_time_cols] *)

Definition is_leap (y : Z) : bool :=
  ((y mod 4 =? 0) && negb (y mod 100 =? 0)) || (y mod 400 =? 0).

Definition days_before_month (y m : Z) : Z :=
  let feb := if is_leap y then 29 else 28 in
  let lens := [31; feb; 31; 30; 31; 30; 31; 31; 30; 31; 30; 31] in
  foldr Z.add 0 (take (Z.to_nat (m - 1)) lens).

Definition dt_field (f : timestamp → value) (t : option timestamp) : value :=
  match t with Some t => f t | None => VNaN end.

(** The [.dt] accessor: only on datetime cells ([None] is [NaT]). *)
Definition dt (s : list value) : result (list (option timestamp)) :=
  traverse (λ v, match v with
                 | VTime t => Ok (Some t)
                 | VNaN => Ok None
                 | _ => Raise AttributeError
                 end) s.

Definition of_datetime (t : option timestamp) : value :=
  match t with Some t => VTime t | None => VNaN end.

Section TimeCols.
(** [pd.to_datetime] on one cell: a timestamp, [NaT] ([None]) or a
    parse error; its format inference belongs to pandas. *)
Variable to_datetime : value → result (option timestamp).

Definition dt_col (df : DataFrame) (c target : value) (f : timestamp → value)
    : result DataFrame :=
  col ← getcol df c;
  ts ← dt col;
  setcol df target (map (dt_field f) ts).

Definition make_time_cols (df : DataFrame) (timestamp_column : value)
    : result DataFrame :=
  raw ← getcol df timestamp_column;
  ts ← traverse to_datetime raw;
  df ← setcol df timestamp_column (map of_datetime ts);
  df ← dt_col df timestamp_column (VStr "Year") (λ t, VInt (ts_year t));
  df ← dt_col df timestamp_column (VStr "Month") (λ t, VInt (ts_month t));
  df ← dt_col df timestamp_column (VStr "Day")
         (λ t, VDate (ts_year t) (ts_month t) (ts_day t));
  df ← dt_col df timestamp_column (VStr "DayOfYear")
         (λ t, VInt (days_before_month (ts_year t) (ts_month t) + ts_day t));
  df ← dt_col df timestamp_column (VStr "Hour") (λ t, VInt (ts_hour t));
  dt_col df timestamp_column (VStr "Minute") (λ t, VInt (ts_minute t)).
End TimeCols.

(** ** [get_outlier_removed_col] and [get_nan_records] *)

(** [Series < threshold] and [Series > threshold] on one cell, for a
    numeric threshold: a missing value compares false, a cell that is not
    a number is a [TypeError]. *)
Definition lt_scalar (threshold : Z) (v : value) : result bool :=
  match v with
  | VInt x => Ok (x <? threshold)
  | VNaN => Ok false
  | _ => Raise TypeError
  end.

Definition gt_scalar (threshold : Z) (v : value) : result bool :=
  match v with
  | VInt x => Ok (x >? threshold)
  | VNaN => Ok false
  | _ => Raise TypeError
  end.

(** A cell the comparison with a number accepts. *)
Definition comparable (v : value) : Prop :=
  match v with VInt _ | VNaN => True | _ => False end.

Definition get_outlier_removed_col (df : DataFrame) (column : value)
    (up_threshold low_threshold : Z) : result DataFrame :=
  col ← getcol df column;
  below ← traverse (lt_scalar up_threshold) col;
  col' ← getcol df column;
  above ← traverse (gt_scalar low_threshold) col';
  Ok (select_mask (zip_with andb below above) df).

Definition get_nan_records (df : DataFrame) : DataFrame :=
  select_mask (map (λ r, existsb isnull r.2) (records df)) df.

(** The cell of record [r] in the column at position [j] lies strictly
    between the thresholds. *)
Definition strictly_between (low high : Z) (j : nat) (r : value * row) : bool :=
  match cell j r with
  | VInt x => (low <? x) && (x <? high)
  | _ => false
  end.

(** ** [get_true_pred_perc] *)

(** An element of the Python sequences handed to [get_true_pred_perc]:
    [None], or a value as a cell holds it. *)
Inductive pyobj :=
| PyNone
| PyVal (v : value).

Coercion PyVal : value >-> pyobj.

(** Python's [==] on these objects: [None] equals [None] and nothing
    else. *)
Definition obj_eqb (a b : pyobj) : bool :=
  match a, b with
  | PyNone, PyNone => true
  | PyVal x, PyVal y => py_eqb x y
  | _, _ => false
  end.

(** [l[i]] on a Python sequence. *)
Definition py_index (l : list pyobj) (i : nat) : result pyobj :=
  match l !! i with
  | Some v => Ok v
  | None => Raise IndexError
  end.

(** The body of the [for] loop, from the counter before to the counter
    after. *)
Definition count_collision (predictions answers : list pyobj)
    (collisions : Z) (index : nat) : result Z :=
  a ← py_index answers index;
  p ← py_index predictions index;
  Ok (if obj_eqb a p then collisions + 1 else collisions).

(** A [for] loop over a sequence, threading the loop's state. *)
Fixpoint for_each {S A} (body : S → A → result S) (s : S) (items : list A)
    : result S :=
  match items with
  | [] => Ok s
  | i :: rest => s' ← body s i; for_each body s' rest
  end.

(** Python's true division of two integers, as an exact rational (the
    float returned is its nearest double). *)
Definition true_div (a b : Z) : result Qc :=
  if b =? 0 then Raise ZeroDivisionError
  else Ok (Qc_of_Z a / Qc_of_Z b)%Qc.

Definition get_true_pred_perc (predictions answers : list pyobj) : result Qc :=
  collisions ← for_each (count_collision predictions answers) 0
                  (seq 0 (length answers));
  true_div (collisions * 100) (Z.of_nat (length answers)).

(** The number of positions at which the two sequences agree. *)
Definition matching_positions (predictions answers : list pyobj) : nat :=
  length (List.filter (λ pa, obj_eqb pa.2 pa.1) (combine predictions answers)).

(** ** Regular expressions of [make_streets_intersections_cols]

    The two patterns are sequences of single character classes and of
    greedy [+] repetitions of one, with one capture group; [re.search]
    tries every start position from the left and, at each, the longest
    repetitions first.  Text is ASCII here: on a character of ASCII the
    classes are those of Python; a character beyond ASCII, which Python
    classifies by its Unicode properties, is in none of them, and the
    properties of the patterns are stated for ASCII addresses. *)

Inductive cls :=
| Word            (* \w *)
| Space           (* \s *)
| Digit           (* \d *)
| Lit (c : ascii) (* [c] *).

Inductive item :=
| One (c : cls)
| Plus (c : cls)
| GOpen
| GClose.

Definition regex := list item.

Definition is_digit (a : ascii) : bool :=
  let n := nat_of_ascii a in (48 <=? n)%nat && (n <=? 57)%nat.

Definition is_word (a : ascii) : bool :=
  let n := nat_of_ascii a in
  is_digit a || ((65 <=? n)%nat && (n <=? 90)%nat)
  || ((97 <=? n)%nat && (n <=? 122)%nat) || (n =? 95)%nat.

Definition is_space (a : ascii) : bool :=
  let n := nat_of_ascii a in
  ((9 <=? n)%nat && (n <=? 13)%nat) || ((28 <=? n)%nat && (n <=? 32)%nat).

Definition in_cls (c : cls) (a : ascii) : bool :=
  match c with
  | Word => is_word a
  | Space => is_space a
  | Digit => is_digit a
  | Lit b => bool_decide (a = b)
  end.

(** Matching at the current position.  [g] holds the text that remained
    when the group was opened and when it was closed. *)
Fixpoint match_here (p : regex) (g : list ascii * list ascii) (s : list ascii)
    : option (list ascii * list ascii) :=
  match p with
  | [] => Some g
  | GOpen :: p' => match_here p' (s, g.2) s
  | GClose :: p' => match_here p' (g.1, s) s
  | One c :: p' =>
      match s with
      | a :: s' => if in_cls c a then match_here p' g s' else None
      | [] => None
      end
  | Plus c :: p' =>
      (fix plus (s : list ascii) : option (list ascii * list ascii) :=
         match s with
         | a :: s' =>
             if in_cls c a then
               match plus s' with
               | Some r => Some r
               | None => match_here p' g s'
               end
             else None
         | [] => None
         end) s
  end.

Definition group_text (g : list ascii * list ascii) : string :=
  string_of_list_ascii (take (length g.1 - length g.2) g.1).

(** [re.search(p, s).group(1)], or [None] without a match. *)
Fixpoint search (p : regex) (s : list ascii) : option string :=
  match match_here p ([], []) s with
  | Some g => Some (group_text g)
  | None =>
      match s with
      | [] => None
      | _ :: s' => search p s'
      end
  end.

(** r'(\w+\s\w+\s[/]\s\w+\s\w+)' *)
Definition intersection_pattern : regex :=
  [ GOpen; Plus Word; One Space; Plus Word; One Space; One (Lit "/"%char);
    One Space; Plus Word; One Space; Plus Word; GClose ].

(** r'\d+\s\w+\s\w+\s(\w+\s\w+)' *)
Definition street_pattern : regex :=
  [ Plus Digit; One Space; Plus Word; One Space; Plus Word; One Space;
    GOpen; Plus Word; One Space; Plus Word; GClose ].

(** ** Frames side by side *)

Definition frame_index (df : DataFrame) : list value := map fst (records df).

(** The cells of the record labelled [l], missing in every column when the
    frame has no such record. *)
Definition lookup_row (df : DataFrame) (l : value) : row :=
  match List.find (λ r, bool_decide (r.1 = l)) (records df) with
  | Some r => r.2
  | None => replicate (length (columns df)) VNaN
  end.

Definition union_index (a b : list value) : list value :=
  a ++ List.filter (λ l, negb (bool_decide (l ∈ a))) b.

(** [pd.concat(frames, axis=1)].  Frames that carry the same index are put
    side by side record by record; otherwise the records are joined on
    their labels (outer join, labels in order of first appearance), which
    pandas refuses when a label is repeated. *)
Definition concat_axis1 (frames : list DataFrame) : result DataFrame :=
  match frames with
  | [] => Raise ValueError
  | f0 :: rest =>
      let header := flat_map columns frames in
      if forallb (λ f, bool_decide (frame_index f = frame_index f0)) rest then
        Ok (mkDF header
              (foldl (λ acc f, zip_with (λ r r', (r.1, r.2 ++ r'.2)) acc (records f))
                 (map (λ l, (l, [])) (frame_index f0)) frames))
      else if forallb (λ f, bool_decide (NoDup (frame_index f))) frames then
        Ok (mkDF header
              (map (λ l, (l, flat_map (λ f, lookup_row f l) frames))
                 (foldl union_index [] (map frame_index frames))))
      else Raise ValueError
  end.

(** ** [make_streets_intersections_cols] *)

(** The [.str] accessor exists on text columns only: a column that has
    cells and no string among them (numbers, dates, nothing but missing
    values) is not one. *)
Definition str_accessor (s : list value) : result (list value) :=
  match s with
  | [] => Ok s
  | _ =>
      if existsb (λ v, match v with VStr _ => true | _ => false end) s
      then Ok s else Raise AttributeError
  end.

(** [.str.extract(p)] on one cell: the group of the first match; missing
    when nothing matches or the cell is not a string. *)
Definition extract_cell (p : regex) (v : value) : value :=
  match v with
  | VStr s =>
      match search p (list_ascii_of_string s) with
      | Some g => VStr g
      | None => VNaN
      end
  | _ => VNaN
  end.

(** [Series.str.extract(p)]: a frame over the same index with the single
    column [0]. *)
Definition str_extract (p : regex) (index : list value) (s : list value) : DataFrame :=
  mkDF [VInt 0] (zip_with (λ l v, (l, [extract_cell p v])) index s).

Definition fillna (filler : value) (df : DataFrame) : DataFrame :=
  mkDF (columns df)
    (map (λ r, (r.1, map (λ v, if isnull v then filler else v) r.2)) (records df)).

Definition rename_columns (d : dict) (df : DataFrame) : DataFrame :=
  mkDF (map (λ c, default c (dict_get d c)) (columns df)) (records df).

(** [df.Address]: attribute access to a column. *)
Definition getattr_col (df : DataFrame) (c : string) : result (list value) :=
  match getcol df (VStr c) with
  | Ok s => Ok s
  | Raise _ => Raise AttributeError
  end.

Definition make_streets_intersections_cols (df : DataFrame) : result DataFrame :=
  address ← getattr_col df "Address";
  address ← str_accessor address;
  let intersection :=
    fillna (VStr " ") (str_extract intersection_pattern (frame_index df) address) in
  address' ← getattr_col df "Address";
  address' ← str_accessor address';
  let street :=
    fillna (VStr " ") (str_extract street_pattern (frame_index df) address') in
  let intersection := rename_columns [(VInt 0, VStr "Intersection")] intersection in
  let street := rename_columns [(VInt 0, VStr "Street")] street in
  concat_axis1 [df; street; intersection].

(** The group a pattern finds in an address cell, if any. *)
Definition address_match (p : regex) (a : value) : option string :=
  match a with
  | VStr s => search p (list_ascii_of_string s)
  | _ => None
  end.

(** The cell the specification appends: the extracted text, or a single
    space where the pattern is absent. *)
Definition placeholder_or (m : option string) : value :=
  match m with
  | Some g => VStr g
  | None => VStr " "
  end.

(** *** What the specification asks of the two columns

    These definitions do not refer to the matcher above: the classes are
    listed character by character, a pattern is read as the set of texts
    it describes, and the extracted cell is fixed by where such a text
    sits in the address. *)

Definition digit_chars : list ascii := list_ascii_of_string "0123456789".

Definition word_chars : list ascii :=
  list_ascii_of_string
    "0123456789ABCDEFGHIJKLMNOPQRSTUVWXYZ_abcdefghijklmnopqrstuvwxyz".

(** Tab, line feed, vertical tab, form feed, carriage return, the four
    separators and the space. *)
Definition space_chars : list ascii :=
  map ascii_of_nat [9; 10; 11; 12; 13; 28; 29; 30; 31; 32]%nat.

Definition class_chars (c : cls) : list ascii :=
  match c with
  | Word => word_chars
  | Space => space_chars
  | Digit => digit_chars
  | Lit b => [b]
  end.

(** A pattern without group markers. *)
Definition marker_free (p : regex) : bool :=
  forallb (λ i, match i with One _ | Plus _ => true | _ => false end) p.

(** The texts a pattern without group markers describes: one character
    of the class for a single class, one or more for a repetition. *)
Fixpoint lang (p : regex) (s : list ascii) : Prop :=
  match p with
  | [] => s = []
  | One c :: p' => ∃ a s', s = a :: s' ∧ a ∈ class_chars c ∧ lang p' s'
  | Plus c :: p' =>
      ∃ a run s', s = a :: run ++ s' ∧ a ∈ class_chars c
                  ∧ Forall (λ b, b ∈ class_chars c) run ∧ lang p' s'
  | _ => False
  end.

(** "digits word word", each followed by a blank: what precedes the
    street. *)
Definition house_text : list ascii → Prop :=
  lang [Plus Digit; One Space; Plus Word; One Space; Plus Word; One Space].

(** "word word": the street. *)
Definition street_text : list ascii → Prop :=
  lang [Plus Word; One Space; Plus Word].

(** "word word / word word": the intersection. *)
Definition intersection_text : list ascii → Prop :=
  lang [ Plus Word; One Space; Plus Word; One Space; One (Lit "/"%char);
         One Space; Plus Word; One Space; Plus Word ].

(** The cell of text without a character beyond ASCII; a cell that is not
    a string has no text. *)
Definition ascii_text (v : value) : bool :=
  match v with
  | VStr s => forallb (λ a, (nat_of_ascii a <? 128)%nat) (list_ascii_of_string s)
  | _ => true
  end.

(** The cell extracted from an address for a pattern that asks for a text
    of [before] followed by a captured text of [group].  Where the address
    holds no such texts (or is no string) the cell is a single space.
    Otherwise it is the captured text of the occurrence that starts first
    in the address, taken up to the end of its last word. *)
Definition extracted_from (before group : list ascii → Prop)
    (address extracted : value) : Prop :=
  match address with
  | VStr s =>
      let found pre h g post :=
        list_ascii_of_string s = pre ++ h ++ g ++ post ∧ before h ∧ group g in
      (extracted = VStr " " ∧ ∀ pre h g post, ¬ found pre h g post)
      ∨ ∃ pre h g post,
          found pre h g post
          ∧ extracted = VStr (string_of_list_ascii g)
          ∧ (∀ pre' h' g' post', found pre' h' g' post' →
               (length pre ≤ length pre')%nat)
          ∧ (∀ a post', post = a :: post' → a ∉ word_chars)
  | _ => extracted = VStr " "
  end.

(** ** Sorting and grouping *)

Fixpoint insert_sorted {A} (leb : A → A → bool) (x : A) (l : list A) : list A :=
  match l with
  | [] => [x]
  | y :: l' => if leb x y then x :: l else y :: insert_sorted leb x l'
  end.

(** A stable sort. *)
Definition sort_by {A} (leb : A → A → bool) (l : list A) : list A :=
  foldr (insert_sorted leb) [] l.

(** Distinct elements in order of first appearance ([Series.unique]). *)
Fixpoint unique (l : list value) : list value :=
  match l with
  | [] => []
  | x :: l' => x :: List.filter (λ y, negb (bool_decide (y = x))) (unique l')
  end.

Definition value_rank (v : value) : nat :=
  match v with
  | VInt _ => 0 | VStr _ => 1 | VTime _ => 2 | VDate _ _ _ => 3 | VNaN => 4
  end.

Definition lex (c1 c2 : comparison) : comparison :=
  match c1 with Eq => c2 | _ => c1 end.

(** The order of group keys of one kind: numbers by value, strings by
    code point, dates and timestamps by calendar.  Keys of different
    kinds in one column are outside the model: pandas orders some of them
    in its own way and refuses others ([TypeError]); here they are merely
    kept apart by [value_rank]. *)
Definition value_compare (a b : value) : comparison :=
  match a, b with
  | VInt x, VInt y => x ?= y
  | VStr x, VStr y => String.compare x y
  | VTime t, VTime u =>
      lex (ts_year t ?= ts_year u) (lex (ts_month t ?= ts_month u)
        (lex (ts_day t ?= ts_day u) (lex (ts_hour t ?= ts_hour u)
          (lex (ts_minute t ?= ts_minute u) (ts_second t ?= ts_second u)))))
  | VDate y m d, VDate y' m' d' => lex (y ?= y') (lex (m ?= m') (d ?= d'))
  | _, _ => Nat.compare (value_rank a) (value_rank b)
  end.

(** The kinds of cell a column of group keys is made of, and the columns
    of one kind: every cell that is not missing is a number, or every one
    a string, a timestamp, a date. *)
Inductive kind := KInt | KStr | KTime | KDate.

Definition of_kind (k : kind) (v : value) : bool :=
  match k, v with
  | _, VNaN => true
  | KInt, VInt _ | KStr, VStr _ | KTime, VTime _ | KDate, VDate _ _ _ => true
  | _, _ => false
  end.

Definition one_kind (s : list value) : Prop :=
  ∃ k, forallb (of_kind k) s = true.

Fixpoint key_compare (k1 k2 : list value) : comparison :=
  match k1, k2 with
  | [], [] => Eq
  | [], _ => Lt
  | _, [] => Gt
  | a :: k1', b :: k2' => lex (value_compare a b) (key_compare k1' k2')
  end.

Definition key_leb (k1 k2 : list value) : bool :=
  match key_compare k1 k2 with Gt => false | _ => true end.

Fixpoint unique_keys (l : list (list value)) : list (list value) :=
  match l with
  | [] => []
  | k :: l' => k :: List.filter (λ k', negb (bool_decide (k' = k))) (unique_keys l')
  end.

Definition col_index (df : DataFrame) (c : value) : result nat :=
  match col_pos c (columns df) with
  | Some j => Ok j
  | None => Raise KeyError
  end.

(** [df[[c1, ..., cn]]] *)
Definition getcols (df : DataFrame) (cs : list value) : result DataFrame :=
  js ← traverse (col_index df) cs;
  Ok (mkDF cs (map (λ r, (r.1, map (λ j, cell j r) js)) (records df))).

(** The sum of a group of a numeric column; missing cells are skipped. *)
Definition sum_cells (l : list value) : value :=
  VInt (foldr (λ v acc, match v with VInt z => z + acc | _ => acc end) 0 l).

(** [df.groupby(keys).agg('sum').reset_index()]: one record per distinct key
    without a missing part, keys in sorted order, every other column
    summed, and a fresh index 0, 1, ...  A key label that names several
    columns is refused.  The order, and that the call returns, are those
    of pandas where every key column holds keys of one kind. *)
Definition groupby_sum (df : DataFrame) (keys : list value) : result DataFrame :=
  if existsb (λ c, (1 <? count_occ value_eq_dec (columns df) c)%nat) keys
  then Raise ValueError
  else
    ks ← traverse (col_index df) keys;
    let key r := map (λ j, cell j r) ks in
    let rest :=
      List.filter (λ j, negb (bool_decide (j ∈ ks))) (seq 0 (length (columns df))) in
    let groups :=
      sort_by key_leb
        (unique_keys (List.filter (λ k, negb (existsb isnull k))
                        (map key (records df)))) in
    Ok (mkDF (keys ++ map (λ j, nth j (columns df) VNaN) rest)
          (imap (λ i k,
                   (VInt (Z.of_nat i),
                    k ++ map (λ j, sum_cells
                                     (map (cell j)
                                        (List.filter (λ r, bool_decide (key r = k))
                                           (records df)))) rest))
             groups)).

(** ** [get_count_table]

    The function writes the [Count] column into the table it is given, so
    the result holds the caller's table after the call and the table
    returned. *)
Definition get_count_table (df : DataFrame) (category time : value)
    : result (DataFrame * DataFrame) :=
  df ← setcol df (VStr "Count") (replicate (nrows df) (VInt 1));
  count_df ← getcols df [category; time; VStr "Count"];
  count_df ← groupby_sum count_df [category; time];
  Ok (df, count_df).

(** The key [get_count_table] groups a record under: its category and
    its time. *)
Definition group_key (jc jt : nat) (r : value * row) : list value :=
  [cell jc r; cell jt r].

(** The keys of the groups in the order of the returned table. *)
Definition count_groups (df : DataFrame) (jc jt : nat) : list (list value) :=
  sort_by key_leb
    (unique_keys (List.filter (λ k, negb (existsb isnull k))
                    (map (group_key jc jt) (records df)))).

(** The number of records of [df] under the key [k]. *)
Definition group_size (df : DataFrame) (jc jt : nat) (k : list value) : nat :=
  length (List.filter (λ r, bool_decide (group_key jc jt r = k)) (records df)).

(** ** [get_count_table_by_street] *)

(** [Series.value_counts()]: the distinct values that are not missing
    with their number of occurrences, most frequent first. *)
Definition value_counts (s : list value) : list (value * Z) :=
  sort_by (λ a b, (b.2 <=? a.2))
    (map (λ v, (v, Z.of_nat (count_occ value_eq_dec s v)))
       (unique (List.filter (λ v, negb (isnull v)) s))).

(** [pd.Series(count, name=elem)] as a frame of one column. *)
Definition named_series (name : value) (count : list (value * Z)) : DataFrame :=
  mkDF [name] (map (λ cn, (cn.1, [VInt cn.2])) count).

(** Python's [elem != 0]. *)
Definition py_neb (a b : value) : bool := negb (py_eqb a b).

(** The body of the loop over the streets. *)
Definition count_street (df local_df : DataFrame) (elem : value) : result DataFrame :=
  if py_neb elem (VInt 0) then
    street ← getcol df (VStr "Street");
    category ← getcol (select_mask (map (λ v, py_eqb v elem) street) df)
                 (VStr "Category");
    let count := value_counts category in
    concat_axis1 [local_df; named_series elem count]
  else Ok local_df.

Definition get_count_table_by_street (df : DataFrame) : result DataFrame :=
  street ← getcol df (VStr "Street");
  for_each (count_street df) (mkDF [] []) (unique street).

(** The number of records of [df] whose street (column [js]) is [s] and
    whose category (column [jc]) is [c]. *)
Definition street_category_count (df : DataFrame) (js jc : nat) (s c : value) : nat :=
  length (List.filter (λ r, py_eqb (cell js r) s && py_eqb (cell jc r) c) (records df)).

(** The cell the specification puts at category [c] and street [s]: the
    count, and nothing where the combination does not occur. *)
Definition count_cell (df : DataFrame) (js jc : nat) (c s : value) : value :=
  match street_category_count df js jc s c with
  | O => VNaN
  | n => VInt (Z.of_nat n)
  end.

(** [out] is [df] with columns added or replaced: the same records under
    the same labels, and every column outside [touched] as it was. *)
Definition extends_columns (touched : list value) (df out : DataFrame) : Prop :=
  nrows out = nrows df ∧
  frame_index out = frame_index df ∧
  ∀ c, c ∉ touched → getcol out c = getcol df c.

(** The columns [make_time_cols] writes. *)
Definition time_columns (timestamp_column : value) : list value :=
  [ timestamp_column; VStr "Year"; VStr "Month"; VStr "Day"; VStr "DayOfYear";
    VStr "Hour"; VStr "Minute" ].

(** What the loop of [get_count_table_by_street] maintains once the
    streets [processed] have been handled: a column per street other than
    0, distinct category labels, every cell the count of its category and
    street, and no category without an occurrence. *)
Definition street_table_inv (df : DataFrame) (js jc : nat)
    (processed : list value) (local_df : DataFrame) : Prop :=
  columns local_df = List.filter (λ s, py_neb s (VInt 0)) processed ∧
  NoDup (frame_index local_df) ∧
  (∀ c, lookup_row local_df c = map (count_cell df js jc c) (columns local_df)) ∧
  (∀ c, c ∈ frame_index local_df →
        ∃ s, s ∈ columns local_df ∧ (0 < street_category_count df js jc s c)%nat).

(** ** Sample tables *)

Definition months_table : DataFrame :=
  mkDF [VStr "Month"] [(VInt 0, [VInt 1]); (VInt 1, [VInt 6]); (VInt 2, [VInt 13])].

Definition weekdays_table : DataFrame :=
  mkDF [VStr "DayOfWeek"] [(VInt 0, [VStr "Monday"]); (VInt 1, [VStr "Funday"])].

Definition weekend_table : DataFrame :=
  mkDF [VStr "DayOfWeek"]
    [ (VInt 0, [VStr "Saturday"]); (VInt 1, [VStr "Sunday"]); (VInt 2, [VStr "Monday"]) ].

Definition outlier_table : DataFrame :=
  mkDF [VStr "value"]
    [ (VInt 0, [VInt (-1)]); (VInt 1, [VInt 0]); (VInt 2, [VInt 5]);
      (VInt 3, [VInt 10]); (VInt 4, [VInt 11]) ].

Definition incidents_table : DataFrame :=
  mkDF [VStr "Address"; VStr "Category"]
    [ (VInt 0, [VStr "OAK ST / LAGUNA ST"; VStr "THEFT"]);
      (VInt 1, [VStr "1500 Block of LOMBARD ST"; VStr "ASSAULT"]);
      (VInt 2, [VNaN; VStr "ASSAULT"]) ].

Definition streets_table : DataFrame :=
  mkDF [VStr "Street"; VStr "Category"]
    [ (VInt 0, [VStr "OAK ST"; VStr "THEFT"]);
      (VInt 1, [VStr " "; VStr "ASSAULT"]);
      (VInt 2, [VInt 0; VStr "ASSAULT"]);
      (VInt 3, [VStr "OAK ST"; VStr "ASSAULT"]);
      (VInt 4, [VStr "OAK ST"; VStr "ASSAULT"]);
      (VInt 5, [VStr "ELM ST"; VStr "FRAUD"]) ].

Definition counts_table : DataFrame :=
  mkDF [VStr "cat"; VStr "day"]
    [ (VInt 0, [VStr "A"; VInt 1]); (VInt 1, [VStr "A"; VInt 1]);
      (VInt 2, [VStr "B"; VInt 1]) ].

(** ** [get_cols_names_below_threshold] *)

(** [df[df["Count"] < threshold]['Category'].unique()] *)
Definition get_cols_names_below_threshold (df : DataFrame) (threshold : Z)
    : result (list value) :=
  count ← getcol df (VStr "Count");
  below ← traverse (lt_scalar threshold) count;
  category ← getcol (select_mask below df) (VStr "Category");
  Ok (unique category).

(** ** Closed forms used in the properties *)

(** The boolean form of [comparable]. *)
Definition comparableb (v : value) : bool :=
  match v with VInt _ | VNaN => true | _ => false end.

(** The order of the returned records as the specification of a sorted
    table has it, without reference to the comparison of the model:
    strings by code point, character by character; numbers by value;
    dates and timestamps field by field from the year down. *)
Inductive string_before : string → string → Prop :=
| before_empty a t : string_before EmptyString (String a t)
| before_head a b s t :
    (nat_of_ascii a < nat_of_ascii b)%nat →
    string_before (String a s) (String b t)
| before_tail a s t :
    string_before s t → string_before (String a s) (String a t).

Fixpoint fields_before (l1 l2 : list Z) : Prop :=
  match l1, l2 with
  | x :: l1', y :: l2' => x < y ∨ (x = y ∧ fields_before l1' l2')
  | _, _ => False
  end.

Definition key_before (a b : value) : Prop :=
  match a, b with
  | VInt x, VInt y => x < y
  | VStr s, VStr t => string_before s t
  | VTime t, VTime u =>
      fields_before
        [ts_year t; ts_month t; ts_day t; ts_hour t; ts_minute t; ts_second t]
        [ts_year u; ts_month u; ts_day u; ts_hour u; ts_minute u; ts_second u]
  | VDate y m d, VDate y' m' d' => fields_before [y; m; d] [y'; m'; d']
  | _, _ => False
  end.

(** Each key is at most the next one in the order of the group keys. *)
Fixpoint ascending (l : list (list value)) : Prop :=
  match l with
  | [] => True
  | k1 :: l' =>
      match l' with
      | [] => True
      | k2 :: _ => key_leb k1 k2 = true
      end ∧ ascending l'
  end.

(** The count a returned record carries. *)
Definition count_of (r : value * row) : nat :=
  match cell 2 r with VInt n => Z.to_nat n | _ => 0 end.

(** Shapes of a pattern: a group still to be closed; a group still to be
    opened and closed (the shape of both patterns of
    [make_streets_intersections_cols]). *)
Fixpoint closing (p : regex) : bool :=
  match p with
  | GClose :: p' => marker_free p'
  | One _ :: p' | Plus _ :: p' => closing p'
  | _ => false
  end.

Fixpoint opening (p : regex) : bool :=
  match p with
  | GOpen :: p' => closing p'
  | One _ :: p' | Plus _ :: p' => opening p'
  | _ => false
  end.

(** An appended cell is the blank placeholder or a piece of the address
    of its record. *)
Definition taken_from (extracted address : value) : Prop :=
  extracted = VStr " " ∨
  ∃ s g pre post, address = VStr s ∧ extracted = VStr g
                  ∧ s = (pre ++ g ++ post)%string.

(** The names of the columns [make_time_cols] derives. *)
Definition derived_time_columns : list value :=
  [ VStr "Year"; VStr "Month"; VStr "Day"; VStr "DayOfYear"; VStr "Hour";
    VStr "Minute" ].

(** ** Further sample data *)


Definition category_counts : DataFrame :=
  mkDF [VStr "Category"; VStr "Day"; VStr "Count"]
    [ (VInt 0, [VStr "ARSON"; VInt 1; VInt 2]);
      (VInt 1, [VStr "THEFT"; VInt 1; VInt 40]);
      (VInt 2, [VStr "ARSON"; VInt 2; VInt 1]);
      (VInt 3, [VStr "FRAUD"; VInt 2; VInt 3]) ].

Definition stale_counts_table : DataFrame :=
  mkDF [VStr "cat"; VStr "Count"; VStr "day"]
    [ (VInt 0, [VStr "B"; VInt 7; VInt 2]); (VInt 1, [VStr "A"; VInt 9; VInt 1]);
      (VInt 2, [VNaN; VInt 0; VInt 1]); (VInt 3, [VStr "B"; VInt 7; VInt 2]) ].

Definition reports_table : DataFrame :=
  mkDF [VStr "Dates"; VStr "Category"]
    [ (VInt 0, [VStr "2015-05-13 23:53:00"; VStr "THEFT"]);
      (VInt 1, [VNaN; VStr "FRAUD"]) ].

(** A stand-in for [pd.to_datetime] on the cells of [reports_table]. *)
Definition sample_to_datetime (v : value) : result (option timestamp) :=
  match v with
  | VStr "2015-05-13 23:53:00" => Ok (Some (mkTimestamp 2015 5 13 23 53 0))
  | VNaN => Ok None
  | VTime t => Ok (Some t)
  | _ => Raise ValueError
  end.


(** * Properties *)

(** ** The error monad *)

Lemma bind_Ok {A B} (m : result A) (f : A → result B) b :
  m ≫= f = Ok b → ∃ a, m = Ok a ∧ f a = Ok b.
Proof. destruct m as [a|e]; [eauto | discriminate]. Qed.

Lemma traverse_Ok {A B} (f : A → result B) (g : A → B) l :
  Forall (λ x, f x = Ok (g x)) l → traverse f l = Ok (map g l).
Proof.
  induction 1 as [|x l Hx _ IH]; [done|]. simpl. by rewrite Hx, IH.
Qed.

(** ** Columns of a frame *)

Lemma col_pos_Some c cols j :
  col_pos c cols = Some j → cols !! j = Some c.
Proof.
  revert j. induction cols as [|c' cols IH]; intros j H; simpl in H; [done|].
  case_decide; simplify_eq/=; [done|].
  destruct (col_pos c cols) eqn:E; simplify_eq/=. by apply IH.
Qed.

Lemma col_pos_app_new c cols :
  col_pos c cols = None → col_pos c (cols ++ [c]) = Some (length cols).
Proof.
  induction cols as [|c' cols IH]; simpl; intros H.
  - by rewrite decide_True.
  - case_decide; [done|]. destruct (col_pos c cols); [done|]. by rewrite IH.
Qed.

Lemma col_pos_app_other c c' cols :
  c' ≠ c → col_pos c' (cols ++ [c]) = col_pos c' cols.
Proof.
  intros Hne. induction cols as [|d cols IH]; simpl.
  - by rewrite decide_False.
  - case_decide; [done|]. by rewrite IH.
Qed.

Lemma col_pos_inj c c' cols j :
  col_pos c cols = Some j → col_pos c' cols = Some j → c = c'.
Proof.
  intros H H'. apply col_pos_Some in H, H'. congruence.
Qed.

Lemma getcol_pos df c j :
  col_pos c (columns df) = Some j → getcol df c = Ok (map (cell j) (records df)).
Proof. intros H. unfold getcol. by rewrite H. Qed.

Lemma getcol_length df c s : getcol df c = Ok s → length s = nrows df.
Proof.
  unfold getcol, nrows. destruct (col_pos c (columns df)); intros H; simplify_eq.
  by rewrite length_map.
Qed.

Lemma cells_replace (j : nat) (n : nat) (recs : list (value * row)) vals :
  length vals = length recs →
  Forall (λ r, length r.2 = n) recs → (j < n)%nat →
  map (cell j) (zip_with (λ r v, (r.1, <[j := v]> r.2)) recs vals) = vals.
Proof.
  intros Hlen Hwf Hj. revert vals Hlen.
  induction Hwf as [|r recs Hr _ IH]; intros [|v vals] Hlen; simplify_eq/=; [done|].
  f_equal; [|by apply IH]. unfold cell; simpl.
  rewrite nth_lookup, list_lookup_insert_eq; [done | lia].
Qed.

Lemma cells_replace_other (j j' : nat) (recs : list (value * row)) vals :
  length vals = length recs → j ≠ j' →
  map (cell j') (zip_with (λ r v, (r.1, <[j := v]> r.2)) recs vals)
  = map (cell j') recs.
Proof.
  intros Hlen Hj. revert vals Hlen.
  induction recs as [|r recs IH]; intros [|v vals] Hlen; simplify_eq/=; [done|].
  f_equal; [|by apply IH]. unfold cell; simpl.
  by rewrite !nth_lookup, list_lookup_insert_ne.
Qed.

Lemma cells_append (n : nat) (recs : list (value * row)) vals :
  length vals = length recs →
  Forall (λ r, length r.2 = n) recs →
  map (cell n) (zip_with (λ r v, (r.1, r.2 ++ [v])) recs vals) = vals.
Proof.
  intros Hlen Hwf. revert vals Hlen.
  induction Hwf as [|r recs Hr _ IH]; intros [|v vals] Hlen; simplify_eq/=; [done|].
  f_equal; [|by apply IH]. unfold cell; simpl.
  rewrite nth_lookup, lookup_app_r by lia. by rewrite Nat.sub_diag.
Qed.

Lemma cells_append_other (n j' : nat) (recs : list (value * row)) vals :
  length vals = length recs →
  Forall (λ r, length r.2 = n) recs → (j' < n)%nat →
  map (cell j') (zip_with (λ r v, (r.1, r.2 ++ [v])) recs vals)
  = map (cell j') recs.
Proof.
  intros Hlen Hwf Hj. revert vals Hlen.
  induction Hwf as [|r recs Hr _ IH]; intros [|v vals] Hlen; simplify_eq/=; [done|].
  f_equal; [|by apply IH]. unfold cell; simpl.
  rewrite !nth_lookup, lookup_app_l by lia. done.
Qed.

Lemma zip_with_fst_index {B} (f : value * row → B → row) recs (vals : list B) :
  length vals = length recs →
  map fst (zip_with (λ r v, (r.1, f r v)) recs vals) = map fst recs.
Proof.
  revert vals. induction recs as [|r recs IH]; intros [|v vals] H; simplify_eq/=; [done|].
  f_equal. by apply IH.
Qed.

(** What an assignment [df[c] = vals] of the right length does: the
    records and their labels stay, column [c] holds [vals], every other
    column is as before. *)
Lemma setcol_spec df c vals :
  wf df → length vals = nrows df →
  ∃ out, setcol df c vals = Ok out ∧ wf out ∧ nrows out = nrows df ∧
    frame_index out = frame_index df ∧
    getcol out c = Ok vals ∧
    (∀ c', c' ≠ c → getcol out c' = getcol df c').
Proof.
  intros Hwf Hlen. unfold setcol.
  rewrite (proj2 (Nat.eqb_eq _ _) Hlen). simpl.
  destruct (col_pos c (columns df)) as [j|] eqn:Hpos; eexists; (split; [done|]).
  - assert (Hj : (j < length (columns df))%nat).
    { apply col_pos_Some in Hpos. by eapply lookup_lt_Some. }
    split_and!.
    + unfold wf in *; simpl. apply Forall_forall. intros r Hr.
      apply elem_of_lookup_zip_with in Hr as (i & r0 & v & -> & Hr0 & _).
      simpl. rewrite length_insert.
      eapply (proj1 (Forall_forall _ _) Hwf). by eapply list_elem_of_lookup_2.
    + unfold nrows in *; simpl. rewrite length_zip_with. lia.
    + unfold frame_index; simpl. by apply zip_with_fst_index.
    + unfold getcol; simpl. rewrite Hpos. f_equal.
      by eapply cells_replace.
    + intros c' Hne. unfold getcol; simpl.
      destruct (col_pos c' (columns df)) as [j'|] eqn:Hpos'; [|done].
      f_equal. apply cells_replace_other; [done|].
      intros ->. apply Hne. by eapply col_pos_inj.
  - split_and!.
    + unfold wf in *; simpl. apply Forall_forall. intros r Hr.
      apply elem_of_lookup_zip_with in Hr as (i & r0 & v & -> & Hr0 & _).
      simpl. rewrite !length_app. simpl. f_equal.
      eapply (proj1 (Forall_forall _ _) Hwf). by eapply list_elem_of_lookup_2.
    + unfold nrows in *; simpl. rewrite length_zip_with. lia.
    + unfold frame_index; simpl. by apply zip_with_fst_index.
    + unfold getcol; simpl. rewrite col_pos_app_new by done. f_equal.
      by apply cells_append.
    + intros c' Hne. unfold getcol; simpl.
      rewrite col_pos_app_other by done.
      destruct (col_pos c' (columns df)) as [j'|] eqn:Hpos'; [|done].
      f_equal. eapply cells_append_other; [done..|].
      apply col_pos_Some in Hpos'. by eapply lookup_lt_Some.
Qed.

(** Membership in an explicit list. *)
Ltac elem_of_explicit :=
  cbn; repeat first [apply list_elem_of_here | apply list_elem_of_further].

Ltac not_elem_of_explicit :=
  let H := fresh in
  cbn; intros H;
  repeat (apply elem_of_cons in H as [H|H]; [discriminate H|]);
  by apply elem_of_nil in H.

(** An explicit list without repetition. *)
Ltac NoDup_explicit :=
  repeat (apply NoDup_cons; split; [not_elem_of_explicit|]); apply NoDup_nil_2.

(** ** Season mapping *)







(** ** Weekday mapping *)

Lemma week_day_mapper_Some k v :
  dict_get week_day_mapper k = Some v →
  ∃ d n, k = VStr d ∧ d ∈ weekday_names ∧ v = VInt n ∧ 0 ≤ n ≤ 6
         ∧ weekday_names !! Z.to_nat n = Some d.
Proof.
  unfold week_day_mapper, dict_get, weekday_names.
  repeat (case_decide;
          [intros [= <-]; subst k; do 2 eexists;
           split_and!; [done | elem_of_explicit | done | lia | lia | done] |]).
  done.
Qed.

Lemma week_day_mapper_None v :
  v ∉ map VStr weekday_names → dict_get week_day_mapper v = None.
Proof.
  intros Hv. unfold week_day_mapper, dict_get.
  repeat (case_decide; [exfalso; apply Hv; subst v; elem_of_explicit |]).
  done.
Qed.

Lemma mapped_weekday_cell w :
  (w ∉ map VStr weekday_names → weekday_cell w = VNaN)
  ∧ (weekday_cell w = VNaN ∨ ∃ n, weekday_cell w = VInt n).
Proof.
  unfold weekday_cell. split.
  - intros Hw. by rewrite week_day_mapper_None.
  - destruct (dict_get week_day_mapper w) as [x|] eqn:Hw; [|by left].
    apply week_day_mapper_Some in Hw as (d & n & _ & _ & -> & _). by eauto.
Qed.

Lemma cast_unmapped_weekday days :
  (∃ v, v ∈ days ∧ v ∉ map VStr weekday_names) →
  astype_int64 (series_map week_day_mapper days) = Raise ValueError.
Proof.
  intros (v & Hin & Hv). unfold astype_int64, series_map.
  change (λ v, default VNaN (dict_get week_day_mapper v)) with weekday_cell.
  pose proof mapped_weekday_cell as Hf. revert Hf. generalize weekday_cell.
  intros f Hf. induction Hin as [v days|v w days _ IH]; simpl.
  - by rewrite (proj1 (Hf v) Hv).
  - rewrite IH by done. by destruct (proj2 (Hf w)) as [->|[n ->]].
Qed.

Lemma cast_mapped_weekday days :
  Forall (λ v, v ∈ map VStr weekday_names) days →
  astype_int64 (series_map week_day_mapper days)
  = Ok (series_map week_day_mapper days).
Proof.
  unfold astype_int64, series_map. intros H.
  rewrite <- (map_id (map _ days)) at 2. apply traverse_Ok.
  apply Forall_map. eapply Forall_impl; [exact H|]. intros v Hv. simpl.
  apply list_elem_of_fmap in Hv as (d & -> & Hd). unfold weekday_names in Hd.
  repeat (apply elem_of_cons in Hd as [->|Hd]; [reflexivity|]).
  by apply elem_of_nil in Hd.
Qed.

(** C5.  The weekday dictionary lists Monday..Sunday with 0..6 in calendar
    order and is a bijection between the seven names and 0..6.  On a table
    with distinct column labels, a weekday column that holds any other
    value makes [make_weekday_to_num] raise (the cast of the missing
    value); a column with only the seven names gives the table with the
    same records whose [weekdayNumerical] cell is the place of the name in
    the week, counted from Monday as 0, every other column as it was. *)
Theorem weekday_mapping df column days :
  getcol df column = Ok days →
  map fst week_day_mapper = map VStr weekday_names ∧
  map snd week_day_mapper = map (λ i, VInt (Z.of_nat i)) (seq 0 7) ∧
  (∀ n, 0 ≤ n ≤ 6 →
     ∃ d, d ∈ weekday_names ∧ dict_get week_day_mapper (VStr d) = Some (VInt n)) ∧
  (∀ d, d ∈ weekday_names →
     ∃ n, 0 ≤ n ≤ 6 ∧ dict_get week_day_mapper (VStr d) = Some (VInt n)) ∧
  (∀ a b v, dict_get week_day_mapper a = Some v →
            dict_get week_day_mapper b = Some v → a = b) ∧
  (NoDup (columns df) → (∃ v, v ∈ days ∧ v ∉ map VStr weekday_names) →
     make_weekday_to_num df column = Raise ValueError) ∧
  (NoDup (columns df) → wf df →
   Forall (λ v, v ∈ map VStr weekday_names) days →
     ∃ out nums, make_weekday_to_num df column = Ok out ∧
       nrows out = nrows df ∧ frame_index out = frame_index df ∧
       getcol out (VStr "weekdayNumerical") = Ok nums ∧
       length nums = length days ∧
       (∀ i d, days !! i = Some (VStr d) →
          ∃ n : nat, nums !! i = Some (VInt (Z.of_nat n)) ∧
            [ "Monday"; "Tuesday"; "Wednesday"; "Thursday"; "Friday";
              "Saturday"; "Sunday" ] !! n = Some d) ∧
       (∀ c, c ≠ VStr "weekdayNumerical" → getcol out c = getcol df c)).
Proof.
  intros Hcol. split_and!; try reflexivity.
  - intros n Hn.
    assert (n = 0 ∨ n = 1 ∨ n = 2 ∨ n = 3 ∨ n = 4 ∨ n = 5 ∨ n = 6) as Hc by lia.
    unfold weekday_names.
    exists (nth (Z.to_nat n) weekday_names "").
    repeat destruct Hc as [->|Hc]; try subst n;
      (split; [elem_of_explicit | reflexivity]).
  - intros d Hd. unfold weekday_names in Hd.
    repeat (apply elem_of_cons in Hd as [->|Hd];
            [eexists; split; [|reflexivity]; lia|]).
    by apply elem_of_nil in Hd.
  - intros a b v Ha Hb.
    apply week_day_mapper_Some in Ha as (d & n & -> & _ & -> & _ & Hd).
    apply week_day_mapper_Some in Hb as (d' & n' & -> & _ & [= <-] & _ & Hd').
    congruence.
  - intros _ Hbad. unfold make_weekday_to_num. rewrite Hcol. simpl.
    by rewrite cast_unmapped_weekday.
  - intros _ Hwf Hall. unfold make_weekday_to_num. rewrite Hcol. simpl.
    rewrite cast_mapped_weekday by done. simpl.
    assert (Hlen : length (series_map week_day_mapper days) = nrows df).
    { unfold series_map. rewrite length_map. by eapply getcol_length. }
    destruct (setcol_spec df (VStr "weekdayNumerical")
                (series_map week_day_mapper days) Hwf Hlen)
      as (out & -> & _ & Hrows & Hidx & Hout & Hother).
    exists out, (series_map week_day_mapper days).
    split_and!; [done | done | done | done | | | done].
    + unfold series_map. by rewrite length_map.
    + intros i d Hi.
      assert (Hd : VStr d ∈ map VStr weekday_names).
      { eapply (proj1 (Forall_forall _ _) Hall). by eapply list_elem_of_lookup_2. }
      apply list_elem_of_fmap in Hd as (d' & [= <-] & Hd).
      unfold series_map. rewrite list_lookup_fmap, Hi.
      unfold weekday_names in Hd.
      repeat (apply elem_of_cons in Hd as [->|Hd];
              [first [ by exists 0%nat | by exists 1%nat | by exists 2%nat
                     | by exists 3%nat | by exists 4%nat | by exists 5%nat
                     | by exists 6%nat ]|]).
      by apply elem_of_nil in Hd.
Qed.

Lemma weekday_mapping_witness :
  make_weekday_to_num weekdays_table (VStr "DayOfWeek") = Raise ValueError
  ∧ ∃ out nums,
      make_weekday_to_num weekend_table (VStr "DayOfWeek") = Ok out
      ∧ getcol out (VStr "weekdayNumerical") = Ok nums
      ∧ nums !! 0%nat = Some (VInt 5) ∧ nums !! 1%nat = Some (VInt 6)
      ∧ nums !! 2%nat = Some (VInt 0).
Proof.
  split.
  - refine (proj1 (proj2 (proj2 (proj2 (proj2 (proj2
      (weekday_mapping weekdays_table (VStr "DayOfWeek")
         [VStr "Monday"; VStr "Funday"] _)))))) _ _).
    + reflexivity.
    + apply NoDup_singleton.
    + exists (VStr "Funday"). split; [elem_of_explicit | not_elem_of_explicit].
  - destruct (proj2 (proj2 (proj2 (proj2 (proj2 (proj2
      (weekday_mapping weekend_table (VStr "DayOfWeek")
         [VStr "Saturday"; VStr "Sunday"; VStr "Monday"] eq_refl))))))
      (NoDup_singleton _))
      as (out & nums & Hout & _ & _ & Hnums & _ & Hcells & _).
    + repeat constructor.
    + repeat constructor; elem_of_explicit.
    + exists out, nums. split_and!; [exact Hout | exact Hnums | | |].
      * destruct (Hcells 0%nat "Saturday" eq_refl) as (n & -> & Hn).
        do 7 (destruct n as [|n]; [by try discriminate Hn|]). discriminate Hn.
      * destruct (Hcells 1%nat "Sunday" eq_refl) as (n & -> & Hn).
        do 7 (destruct n as [|n]; [by try discriminate Hn|]). discriminate Hn.
      * destruct (Hcells 2%nat "Monday" eq_refl) as (n & -> & Hn).
        do 7 (destruct n as [|n]; [by try discriminate Hn|]). discriminate Hn.
Defined.

(** ** Row filters *)

Lemma select_mask_filter (p : value * row → bool) df :
  records (select_mask (map p (records df)) df) = List.filter p (records df).
Proof.
  unfold select_mask; simpl. induction (records df) as [|r recs IH]; [done|].
  simpl. destruct (p r); simpl; by rewrite IH.
Qed.

Lemma select_mask_sublist mask df :
  records (select_mask mask df) `sublist_of` records df.
Proof.
  unfold select_mask; simpl. revert mask.
  induction (records df) as [|r recs IH]; intros [|b mask]; simpl;
    try apply sublist_nil_l.
  destruct b; simpl; [apply sublist_skip | apply sublist_cons]; apply IH.
Qed.

Lemma filter_ext_Forall {A} (p q : A → bool) (P : A → Prop) l :
  Forall P l → (∀ x, P x → p x = q x) → List.filter p l = List.filter q l.
Proof.
  intros Hl Hpq. induction Hl as [|x l Hx _ IH]; [done|].
  simpl. by rewrite (Hpq x Hx), IH.
Qed.

Lemma zip_with_map_same {A B C D} (f : B → C → D) (g : A → B) (h : A → C) l :
  zip_with f (map g l) (map h l) = map (λ x, f (g x) (h x)) l.
Proof. induction l; simpl; congruence. Qed.

Lemma outlier_mask df column up low j :
  col_pos column (columns df) = Some j →
  Forall (λ r, comparable (cell j r)) (records df) →
  get_outlier_removed_col df column up low
  = Ok (mkDF (columns df) (List.filter (strictly_between low up j) (records df))).
Proof.
  intros Hpos Hnum. unfold get_outlier_removed_col, getcol. rewrite Hpos. simpl.
  rewrite (traverse_Ok (lt_scalar up)
             (λ v, match v with VInt x => x <? up | _ => false end)).
  2:{ apply Forall_map. eapply Forall_impl; [exact Hnum|].
      intros r Hr; simpl in *. by destruct (cell j r). }
  simpl.
  rewrite (traverse_Ok (gt_scalar low)
             (λ v, match v with VInt x => x >? low | _ => false end)).
  2:{ apply Forall_map. eapply Forall_impl; [exact Hnum|].
      intros r Hr; simpl in *. by destruct (cell j r). }
  simpl. f_equal. rewrite !map_map, zip_with_map_same.
  unfold select_mask at 1. f_equal.
  etrans; [apply (select_mask_filter _ df)|].
  apply (filter_ext_Forall _ _ _ _ Hnum). intros r Hr. unfold strictly_between.
  destruct (cell j r); try done. rewrite Z.gtb_ltb. apply andb_comm.
Qed.

Lemma outlier_sublist df column up low out :
  get_outlier_removed_col df column up low = Ok out →
  columns out = columns df ∧ records out `sublist_of` records df.
Proof.
  unfold get_outlier_removed_col. intros H.
  apply bind_Ok in H as (col & _ & H). apply bind_Ok in H as (below & _ & H).
  apply bind_Ok in H as (col' & _ & H). apply bind_Ok in H as (above & _ & H).
  inversion H; subst. split; [done | apply select_mask_sublist].
Qed.

(** C3.  On a table with distinct column labels whose column [column] is
    numeric, [get_outlier_removed_col] returns the table of exactly the
    records whose cell in that column lies strictly between the low and the
    high threshold, in their order; a record whose cell equals a threshold
    is not among them.  With low 0, high 10 and the cells -1, 0, 5, 10, 11
    the result is the single record holding 5.  (Under a repeated label
    [df[column]] is a frame and the comparison no longer selects records.) *)
Theorem outlier_filter df column low high j :
  NoDup (columns df) →
  col_pos column (columns df) = Some j →
  Forall (λ r, comparable (cell j r)) (records df) →
  ∃ out, get_outlier_removed_col df column high low = Ok out ∧
    columns out = columns df ∧
    records out = List.filter (strictly_between low high j) (records df) ∧
    (∀ r, r ∈ records out ↔
          r ∈ records df ∧ ∃ x, cell j r = VInt x ∧ low < x < high) ∧
    (∀ r, r ∈ records out → cell j r ≠ VInt low ∧ cell j r ≠ VInt high) ∧
    get_outlier_removed_col outlier_table (VStr "value") 10 0
    = Ok (mkDF [VStr "value"] [(VInt 2, [VInt 5])]).
Proof.
  intros _ Hpos Hnum. eexists. split; [by apply outlier_mask|]. simpl.
  assert (Hin : ∀ r, r ∈ List.filter (strictly_between low high j) (records df) ↔
                 r ∈ records df ∧ ∃ x, cell j r = VInt x ∧ low < x < high).
  { intros r. rewrite list_elem_of_In, filter_In, <- list_elem_of_In.
    unfold strictly_between. split.
    - intros [Hr Hb]. split; [done|]. destruct (cell j r) as [x| | | |]; try done.
      exists x. split; [done|]. apply andb_prop in Hb as [? ?]. lia.
    - intros [Hr (x & -> & Hx)]. split; [done|].
      apply andb_true_intro. split; lia. }
  split_and!; [done | done | exact Hin | | reflexivity].
  intros r Hr. apply Hin in Hr as (_ & x & -> & Hx).
  split; intros [= ->]; lia.
Qed.

Lemma outlier_filter_witness :
  ∃ out, get_outlier_removed_col outlier_table (VStr "value") 10 0 = Ok out ∧
    columns out = [VStr "value"] ∧ records out = [(VInt 2, [VInt 5])].
Proof.
  destruct (outlier_filter outlier_table (VStr "value") 0 10 0)
    as (out & Hout & Hcols & Hrecs & _).
  - apply NoDup_singleton.
  - reflexivity.
  - repeat constructor.
  - exists out. split_and!; [exact Hout | exact Hcols | exact Hrecs].
Defined.

(** C10.  The table [get_outlier_removed_col] returns and the table
    [get_nan_records] returns have the header of the input, and their
    records (label and cells together) form a subsequence of the input's
    records: each is a record of the input, unchanged, and the order is
    kept.  [get_nan_records] always returns; [get_outlier_removed_col]
    returns on every table whose chosen column exists and is numeric.  The
    part on [get_outlier_removed_col] is for tables with distinct column
    labels: under a repeated label its mask is a frame, which blanks cells
    instead of selecting records. *)
Theorem filters_return_subsequence df column up low :
  (NoDup (columns df) →
   match get_outlier_removed_col df column up low with
   | Ok out => columns out = columns df ∧ records out `sublist_of` records df
   | Raise e => True
   end ∧
   (∀ j, col_pos column (columns df) = Some j →
         Forall (λ r, comparable (cell j r)) (records df) →
         is_ok (get_outlier_removed_col df column up low) = true)) ∧
  columns (get_nan_records df) = columns df ∧
  records (get_nan_records df) `sublist_of` records df ∧
  records (get_nan_records df)
  = List.filter (λ r, existsb isnull r.2) (records df).
Proof.
  split_and!.
  - intros _. split.
    + destruct (get_outlier_removed_col df column up low) as [out|e] eqn:H; [|done].
      by eapply outlier_sublist.
    + intros j Hpos Hnum. by rewrite (outlier_mask _ _ _ _ j).
  - done.
  - apply select_mask_sublist.
  - apply select_mask_filter.
Qed.

Lemma filters_return_subsequence_witness :
  is_ok (get_outlier_removed_col outlier_table (VStr "value") 10 0) = true.
Proof.
  refine (proj2 (proj1 (filters_return_subsequence outlier_table (VStr "value") 10 0)
                   _) 0%nat _ _).
  - apply NoDup_singleton.
  - reflexivity.
  - repeat constructor.
Defined.

(** ** Accuracy *)

Lemma py_index_middle (pre : list pyobj) x post :
  py_index (pre ++ x :: post) (length pre) = Ok x.
Proof. unfold py_index. by rewrite list_lookup_middle. Qed.

Lemma matching_positions_cons y p x a :
  matching_positions (y :: p) (x :: a)
  = ((if obj_eqb x y then 1 else 0) + matching_positions p a)%nat.
Proof. unfold matching_positions. simpl. by destruct (obj_eqb x y). Qed.

Lemma count_collision_middle pre_p pre_a y p x a c :
  length pre_p = length pre_a →
  count_collision (pre_p ++ y :: p) (pre_a ++ x :: a) c (length pre_a)
  = Ok (if obj_eqb x y then c + 1 else c).
Proof.
  intros Hpre. unfold count_collision. rewrite py_index_middle. simpl.
  by rewrite <- Hpre, py_index_middle.
Qed.

(** The loop from index [length pre_a] on, over the remaining answers. *)
Lemma collisions_loop pre_p pre_a p a (collisions : Z) :
  length pre_p = length pre_a → (length a ≤ length p)%nat →
  for_each (count_collision (pre_p ++ p) (pre_a ++ a)) collisions
    (seq (length pre_a) (length a))
  = Ok (collisions + Z.of_nat (matching_positions p a)).
Proof.
  revert pre_p pre_a p collisions.
  induction a as [|x a IH]; intros pre_p pre_a p c Hpre Hlen.
  - simpl. unfold matching_positions. destruct p; simpl; f_equal; lia.
  - destruct p as [|y p]; [simpl in Hlen; lia|].
    cbn [length seq for_each]. rewrite count_collision_middle by done.
    cbn [mbind result_bind].
    rewrite (cons_middle y pre_p p), (cons_middle x pre_a a), !app_assoc.
    replace (S (length pre_a)) with (length (pre_a ++ [x]))
      by (rewrite length_app; simpl; lia).
    rewrite IH.
    + rewrite matching_positions_cons. f_equal. destruct (obj_eqb x y); lia.
    + rewrite !length_app. simpl. lia.
    + simpl in Hlen. lia.
Qed.

Lemma accuracy_as_division predictions answers :
  (length answers ≤ length predictions)%nat →
  get_true_pred_perc predictions answers
  = true_div (Z.of_nat (matching_positions predictions answers) * 100)
      (Z.of_nat (length answers)).
Proof.
  intros Hlen. unfold get_true_pred_perc.
  pose proof (collisions_loop [] [] predictions answers 0 eq_refl Hlen) as H.
  simpl in H. by rewrite H.
Qed.

Lemma matching_positions_take predictions answers :
  matching_positions (take (length answers) predictions) answers
  = matching_positions predictions answers.
Proof.
  revert predictions. induction answers as [|x a IH]; intros [|y p]; try done.
  simpl. by rewrite !matching_positions_cons, IH.
Qed.

(** C4.  For predictions and answers of one length, [get_true_pred_perc]
    returns 100 x (number of agreeing positions) / (length) when the
    sequences are not empty and raises [ZeroDivisionError] when they are;
    [1,0,1,1] against [1,1,1,0] gives 50.  Positions agree under Python's
    [==]: two [None] agree, two [NaN] do not, so [None, 1] against
    [None, 1] gives 100. *)
Theorem accuracy_score predictions answers :
  length predictions = length answers →
  (answers ≠ [] →
     get_true_pred_perc predictions answers
     = Ok (Qc_of_Z 100 * Qc_of_Z (Z.of_nat (matching_positions predictions answers))
           / Qc_of_Z (Z.of_nat (length answers)))%Qc) ∧
  (answers = [] →
     get_true_pred_perc predictions answers = Raise ZeroDivisionError) ∧
  get_true_pred_perc (map PyVal [VInt 1; VInt 0; VInt 1; VInt 1])
    (map PyVal [VInt 1; VInt 1; VInt 1; VInt 0]) = Ok (Qc_of_Z 50) ∧
  get_true_pred_perc [PyNone; PyVal (VInt 1)] [PyNone; PyVal (VInt 1)]
  = Ok (Qc_of_Z 100) ∧
  get_true_pred_perc [PyVal VNaN; PyVal (VInt 1)] [PyVal VNaN; PyVal (VInt 1)]
  = Ok (Qc_of_Z 50).
Proof.
  intros Hlen. split_and!.
  - intros Hne. rewrite accuracy_as_division by lia. unfold true_div.
    destruct answers as [|x a]; [done|].
    replace (Z.of_nat (length (x :: a)) =? 0) with false
      by (symmetry; apply Z.eqb_neq; simpl; lia).
    f_equal. rewrite Z.mul_comm, Z2Qc_inj_mul. done.
  - intros ->. destruct predictions; [reflexivity | done].
  - apply (f_equal Ok). apply Qc_is_canon. reflexivity.
  - apply (f_equal Ok). apply Qc_is_canon. reflexivity.
  - apply (f_equal Ok). apply Qc_is_canon. reflexivity.
Qed.

Lemma accuracy_score_witness :
  get_true_pred_perc [PyNone; PyVal (VStr "a"); PyVal (VStr "b")]
    [PyNone; PyVal (VStr "a"); PyVal (VStr "c")]
  = Ok (Qc_of_Z 100 * Qc_of_Z 2 / Qc_of_Z 3)%Qc.
Proof.
  refine (proj1 (accuracy_score [PyNone; PyVal (VStr "a"); PyVal (VStr "b")]
                   [PyNone; PyVal (VStr "a"); PyVal (VStr "c")] _) _);
    done.
Defined.

(** C9.  [get_true_pred_perc] reads only the first [len(answers)]
    predictions: for answers that are not empty and two prediction
    sequences at least as long that agree on those positions, both calls
    return, and return the same percentage. *)
Theorem accuracy_ignores_extra_predictions answers predictions1 predictions2 :
  answers ≠ [] →
  (length answers ≤ length predictions1)%nat →
  (length answers ≤ length predictions2)%nat →
  take (length answers) predictions1 = take (length answers) predictions2 →
  get_true_pred_perc predictions1 answers = get_true_pred_perc predictions2 answers
  ∧ ∃ q, get_true_pred_perc predictions1 answers = Ok q.
Proof.
  intros Hne H1 H2 Htake. rewrite !accuracy_as_division by done.
  rewrite <- (matching_positions_take predictions1),
          <- (matching_positions_take predictions2), Htake.
  split; [done|]. unfold true_div.
  destruct answers as [|x a]; [done|].
  replace (Z.of_nat (length (x :: a)) =? 0) with false
    by (symmetry; apply Z.eqb_neq; simpl; lia).
  by eexists.
Qed.

Lemma accuracy_ignores_extra_predictions_witness :
  get_true_pred_perc (map PyVal [VInt 1; VInt 0; VInt 7]) (map PyVal [VInt 1; VInt 1])
  = get_true_pred_perc (map PyVal [VInt 1; VInt 0]) (map PyVal [VInt 1; VInt 1]).
Proof.
  refine (proj1 (accuracy_ignores_extra_predictions (map PyVal [VInt 1; VInt 1])
                   (map PyVal [VInt 1; VInt 0; VInt 7]) (map PyVal [VInt 1; VInt 0]) _ _ _ _));
    [done | simpl; lia | simpl; lia | reflexivity].
Defined.

(** ** Street and intersection extraction *)

Lemma extract_fill p a :
  (if isnull (extract_cell p a) then VStr " " else extract_cell p a)
  = placeholder_or (address_match p a).
Proof.
  destruct a as [|s| | |]; try done. simpl.
  by destruct (search p (list_ascii_of_string s)).
Qed.

Lemma extracted_frame_records p name (recs : list (value * row)) addresses :
  records (rename_columns [(VInt 0, name)]
             (fillna (VStr " ") (str_extract p (map fst recs) addresses)))
  = zip_with (λ r a, (r.1, [placeholder_or (address_match p a)])) recs addresses.
Proof.
  simpl. revert addresses.
  induction recs as [|r recs IH]; intros [|a addresses]; try done.
  simpl. rewrite extract_fill. f_equal. apply IH.
Qed.

Lemma zip_with_labels {B} (f : B → row) (recs : list (value * row)) (l : list B) :
  length l = length recs →
  map fst (zip_with (λ r a, (r.1, f a)) recs l) = map fst recs.
Proof.
  revert l. induction recs as [|r recs IH]; intros [|a l] H; simplify_eq/=; [done|].
  f_equal. by apply IH.
Qed.

Lemma side_by_side (f g : value → value) (recs : list (value * row)) addresses :
  length addresses = length recs →
  zip_with (λ r r' : value * row, (r.1, r.2 ++ r'.2))
    (zip_with (λ r r' : value * row, (r.1, r.2 ++ r'.2))
       (zip_with (λ r r' : value * row, (r.1, r.2 ++ r'.2))
          (map (λ l, (l, [])) (map fst recs)) recs)
       (zip_with (λ r a, (r.1, [f a])) recs addresses))
    (zip_with (λ r a, (r.1, [g a])) recs addresses)
  = zip_with (λ r a, (r.1, r.2 ++ [f a; g a])) recs addresses.
Proof.
  revert addresses.
  induction recs as [|r recs IH]; intros [|a addresses] H; simplify_eq/=; [done|].
  f_equal; [|by apply IH]. by rewrite <- app_assoc.
Qed.

(** The table [make_streets_intersections_cols] builds on a text
    [Address] column. *)
Lemma make_streets_result df addresses :
  getcol df (VStr "Address") = Ok addresses →
  str_accessor addresses = Ok addresses →
  make_streets_intersections_cols df
  = Ok (mkDF (columns df ++ [VStr "Street"; VStr "Intersection"])
          (zip_with (λ r a, (r.1, r.2 ++
                       [ placeholder_or (address_match street_pattern a);
                         placeholder_or (address_match intersection_pattern a) ]))
             (records df) addresses)).
Proof.
  intros Hcol Hstr.
  assert (Hlen : length addresses = length (records df))
    by (by eapply getcol_length).
  unfold make_streets_intersections_cols, getattr_col. rewrite Hcol.
  cbn [mbind result_bind]. rewrite Hstr. cbn [mbind result_bind].
  cbv zeta. unfold concat_axis1, frame_index. cbn [forallb foldl].
  rewrite !extracted_frame_records.
  rewrite !zip_with_labels by done.
  rewrite !bool_decide_eq_true_2 by done. cbn [andb].
  cbn [columns records map flat_map rename_columns fillna str_extract
       dict_get default].
  rewrite (side_by_side (λ a, placeholder_or (address_match street_pattern a))
             (λ a, placeholder_or (address_match intersection_pattern a))) by done.
  by rewrite app_nil_r.
Qed.

(** *** The matcher against the texts of a pattern *)

Lemma existsb_eqb_elem_of a l : existsb (Ascii.eqb a) l = true ↔ a ∈ l.
Proof.
  rewrite existsb_exists. split.
  - intros (b & Hb%list_elem_of_In & ->%Ascii.eqb_eq). done.
  - intros H. exists a. split; [by apply list_elem_of_In | apply Ascii.eqb_refl].
Qed.

(** The tests of the matcher accept the listed characters and no other
    (checked on each of the 256 characters). *)
Lemma is_word_chars a : is_word a = existsb (Ascii.eqb a) word_chars.
Proof. destruct a as [[] [] [] [] [] [] [] []]; vm_compute; reflexivity. Qed.

Lemma is_digit_chars a : is_digit a = existsb (Ascii.eqb a) digit_chars.
Proof. destruct a as [[] [] [] [] [] [] [] []]; vm_compute; reflexivity. Qed.

Lemma is_space_chars a : is_space a = existsb (Ascii.eqb a) space_chars.
Proof. destruct a as [[] [] [] [] [] [] [] []]; vm_compute; reflexivity. Qed.

Lemma in_cls_spec c a : in_cls c a = true ↔ a ∈ class_chars c.
Proof.
  destruct c as [| | |b]; cbn [in_cls class_chars].
  - by rewrite is_word_chars, existsb_eqb_elem_of.
  - by rewrite is_space_chars, existsb_eqb_elem_of.
  - by rewrite is_digit_chars, existsb_eqb_elem_of.
  - rewrite bool_decide_eq_true. split; [intros ->; apply list_elem_of_here|].
    intros H. apply elem_of_cons in H as [H|H]; [done|]. by apply elem_of_nil in H.
Qed.

(** One step of a repetition. *)
Lemma match_here_plus c p g s :
  match_here (Plus c :: p) g s
  = match s with
    | a :: s' =>
        if in_cls c a then
          match match_here (Plus c :: p) g s' with
          | Some r => Some r
          | None => match_here p g s'
          end
        else None
    | [] => None
    end.
Proof. by destruct s. Qed.

(** Soundness: what the matcher consumes for a pattern without markers,
    before it goes on with the rest [k] of the pattern, is a text of that
    pattern. *)
Lemma match_here_sound p k g s r :
  marker_free p = true → match_here (p ++ k) g s = Some r →
  ∃ m rest, s = m ++ rest ∧ lang p m ∧ match_here k g rest = Some r.
Proof.
  revert s. induction p as [|i p IH]; intros s Hp H.
  - by exists [], s.
  - destruct i as [c|c| |]; try done; cbn [marker_free forallb andb] in Hp;
      cbn [app] in H.
    + destruct s as [|a s]; [done|]. cbn [match_here] in H.
      destruct (in_cls c a) eqn:Ha; [|done].
      destruct (IH s Hp H) as (m & rest & -> & Hm & Hk).
      exists (a :: m), rest. split_and!; [done| |done].
      exists a, m. split_and!; [done| by apply in_cls_spec | done].
    + induction s as [|a s IHs]; rewrite match_here_plus in H; [done|].
      destruct (in_cls c a) eqn:Ha; [|done]. apply in_cls_spec in Ha.
      destruct (match_here (Plus c :: p ++ k) g s) as [r'|] eqn:E.
      * injection H as <-.
        destruct (IHs eq_refl) as (m & rest & -> & Hm & Hk).
        destruct Hm as (b & run & m' & -> & Hb & Hrun & Hm').
        exists (a :: (b :: run) ++ m'), rest. split_and!; [done| |done].
        exists a, (b :: run), m'. split_and!; [done | done | by constructor | done].
      * destruct (IH s Hp H) as (m & rest & -> & Hm & Hk).
        exists (a :: m), rest. split_and!; [done| |done].
        exists a, [], m. split_and!; [done | done | constructor | done].
Qed.

(** Completeness: where a text of the pattern is followed by a text on
    which the rest [k] succeeds, the matcher succeeds. *)
Lemma match_here_complete p k g m rest :
  lang p m → is_Some (match_here k g rest) →
  is_Some (match_here (p ++ k) g (m ++ rest)).
Proof.
  revert m. induction p as [|i p IH]; intros m Hm Hk.
  - cbn [lang] in Hm. by subst m.
  - destruct i as [c|c| |]; try done; cbn [lang] in Hm; cbn [app].
    + destruct Hm as (a & m' & -> & Ha%in_cls_spec & Hm').
      cbn [app match_here]. rewrite Ha. by apply IH.
    + destruct Hm as (a & run & m' & -> & Ha & Hrun & Hm').
      revert a Ha. induction Hrun as [|b run Hb _ IHrun]; intros a Ha%in_cls_spec.
      * cbn [app]. rewrite match_here_plus, Ha.
        destruct (match_here (Plus c :: p ++ k) g (m' ++ rest)); [done|].
        by apply IH.
      * rewrite match_here_plus. cbn [app]. rewrite Ha.
        destruct (IHrun b Hb) as [r Hr]. cbn [app] in Hr. by rewrite Hr.
Qed.

(** A repetition that ends the group takes the whole run of its class:
    the text left over does not start with a character of the class. *)
Lemma match_here_plus_close c g s r :
  match_here [Plus c; GClose] g s = Some r →
  r.1 = g.1 ∧ (∃ run, s = run ++ r.2 ∧ lang [Plus c] run)
  ∧ ∀ a rest, r.2 = a :: rest → a ∉ class_chars c.
Proof.
  induction s as [|a s IH]; rewrite match_here_plus; [done|].
  destruct (in_cls c a) eqn:Ha; [|done]. apply in_cls_spec in Ha.
  destruct (match_here [Plus c; GClose] g s) as [r'|] eqn:E.
  - intros [= <-]. destruct (IH eq_refl) as (H1 & (run & Hs & Hrun) & Hend).
    split_and!; [done| |done].
    destruct Hrun as (b & run' & m' & -> & Hb & Hrun' & ->).
    exists (a :: (b :: run') ++ []). split; [by rewrite Hs at 1|].
    exists a, (b :: run'), []. split_and!; [done | done | by constructor | done].
  - cbn [match_here]. intros [= <-]. cbn [fst snd]. split_and!; [done| |].
    + exists [a]. split; [done|]. exists a, [], []. by split_and!; [..|constructor|].
    + intros b rest -> Hb%in_cls_spec. rewrite match_here_plus, Hb in E.
      by destruct (match_here [Plus c; GClose] g rest).
Qed.

Lemma lang_app p1 p2 m1 m2 :
  lang p1 m1 → lang p2 m2 → lang (p1 ++ p2) (m1 ++ m2).
Proof.
  revert m1. induction p1 as [|i p1 IH]; intros m1 H1 H2.
  - cbn [lang] in H1. by subst m1.
  - destruct i as [c|c| |]; try done; cbn [lang app] in *.
    + destruct H1 as (a & m' & -> & Ha & Hm'). exists a, (m' ++ m2).
      split_and!; [done | done | by apply IH].
    + destruct H1 as (a & run & m' & -> & Ha & Hrun & Hm').
      exists a, run, (m' ++ m2).
      split_and!; [simpl; by rewrite <- app_assoc | done | done | by apply IH].
Qed.

Lemma group_text_between k rest :
  group_text (k ++ rest, rest) = string_of_list_ascii k.
Proof.
  unfold group_text. cbn [fst snd].
  by rewrite length_app, Nat.add_sub, take_app_length.
Qed.

(** A match of a pattern with one group that ends in a repetition: a
    text of what precedes the group, then the captured text. *)
Lemma match_here_group p1 q c s r :
  marker_free p1 = true → marker_free q = true →
  match_here (p1 ++ GOpen :: q ++ [Plus c; GClose]) ([], []) s = Some r →
  ∃ h m post, s = h ++ m ++ post ∧ lang p1 h ∧ lang (q ++ [Plus c]) m
    ∧ group_text r = string_of_list_ascii m
    ∧ ∀ a post', post = a :: post' → a ∉ class_chars c.
Proof.
  intros Hp1 Hq H.
  apply match_here_sound in H as (h & rest1 & -> & Hh & H); [|done].
  cbn [match_here fst snd] in H.
  apply match_here_sound in H as (m1 & rest2 & -> & Hm1 & H); [|done].
  apply match_here_plus_close in H as (Hr1 & (run & -> & Hrun) & Hend).
  cbn [fst] in Hr1. exists h, (m1 ++ run), r.2. split_and!.
  - by rewrite <- app_assoc.
  - done.
  - by apply lang_app.
  - destruct r as [r1 r2]. cbn [fst snd] in *. subst r1.
    rewrite app_assoc. apply group_text_between.
  - done.
Qed.

Lemma match_here_group_complete p1 q c g h m post :
  lang p1 h → lang (q ++ [Plus c]) m →
  is_Some (match_here (p1 ++ GOpen :: q ++ [Plus c; GClose]) g (h ++ m ++ post)).
Proof.
  intros Hh Hm. apply match_here_complete; [done|]. cbn [match_here].
  replace (q ++ [Plus c; GClose]) with ((q ++ [Plus c]) ++ [GClose])
    by (by rewrite <- app_assoc).
  by apply match_here_complete.
Qed.

(** [search] returns the match at the first position that has one. *)
Lemma search_first p s :
  match search p s with
  | Some text =>
      ∃ pre s' g, s = pre ++ s' ∧ match_here p ([], []) s' = Some g
        ∧ text = group_text g
        ∧ ∀ pre' s'', s = pre' ++ s'' → (length pre' < length pre)%nat →
            match_here p ([], []) s'' = None
  | None => ∀ pre s', s = pre ++ s' → match_here p ([], []) s' = None
  end.
Proof.
  induction s as [|a s IH]; cbn [search].
  - destruct (match_here p ([], []) []) as [g|] eqn:E.
    + exists [], [], g. split_and!; [done..|]. intros pre' s'' _ Hlt. simpl in Hlt. lia.
    + intros pre s' Hs. symmetry in Hs. apply app_eq_nil in Hs as [_ ->]. done.
  - destruct (match_here p ([], []) (a :: s)) as [g|] eqn:E.
    + exists [], (a :: s), g. split_and!; [done..|].
      intros pre' s'' _ Hlt. simpl in Hlt. lia.
    + destruct (search p s) as [text|].
      * destruct IH as (pre & s' & g & -> & Hg & -> & Hfirst).
        exists (a :: pre), s', g. split_and!; [done..|].
        intros [|b pre'] s'' Hs Hlt.
        -- simpl in Hs. by subst s''.
        -- injection Hs as <- Hs. apply (Hfirst pre' s'' Hs). simpl in Hlt. lia.
      * intros [|b pre] s' Hs.
        -- simpl in Hs. by subst s'.
        -- injection Hs as <- Hs. by apply (IH pre s').
Qed.

(** The cell written for an address is the one the specification asks
    for. *)
Lemma extracted_spec p1 q a :
  marker_free p1 = true → marker_free q = true →
  extracted_from (lang p1) (lang (q ++ [Plus Word])) a
    (placeholder_or (address_match (p1 ++ GOpen :: q ++ [Plus Word; GClose]) a)).
Proof.
  intros Hp1 Hq. destruct a as [|s| | |]; try done.
  cbn [extracted_from address_match].
  pose proof (search_first (p1 ++ GOpen :: q ++ [Plus Word; GClose])
                (list_ascii_of_string s)) as Hsearch.
  destruct (search _ (list_ascii_of_string s)) as [text|].
  - right. destruct Hsearch as (pre & s' & g & Hs & Hg & -> & Hfirst).
    apply match_here_group in Hg as (h & m & post & -> & Hh & Hm & Htext & Hend);
      [|done..].
    exists pre, h, m, post. split_and!; [done | done | done | | | done].
    + cbn [placeholder_or]. by rewrite Htext.
    + intros pre' h' g' post' (Hs' & Hh' & Hg').
      destruct (decide (length pre' < length pre)%nat) as [Hlt|]; [|lia].
      pose proof (Hfirst pre' _ Hs' Hlt) as Hnone.
      destruct (match_here_group_complete p1 q Word ([], []) h' g' post' Hh' Hg')
        as [r Hr].
      congruence.
  - left. split; [done|]. intros pre h g post (Hs & Hh & Hg).
    pose proof (Hsearch pre _ Hs) as Hnone.
    destruct (match_here_group_complete p1 q Word ([], []) h g post Hh Hg)
      as [r Hr].
    congruence.
Qed.

(** A column with a string in it has the [.str] accessor. *)
Lemma str_accessor_text s addresses :
  VStr s ∈ addresses → str_accessor addresses = Ok addresses.
Proof.
  intros Hs. unfold str_accessor.
  destruct addresses as [|v l] eqn:E; [done|]. rewrite <- E in *.
  assert (existsb (λ v, match v with VStr _ => true | _ => false end) addresses
          = true) as ->; [|done].
  apply existsb_exists. exists (VStr s). split; [by apply list_elem_of_In | done].
Qed.

(** C7.  On a table with distinct column labels whose [Address] column
    holds ASCII text (at least one string),
    [make_streets_intersections_cols] returns the table with the same
    records, each extended by a [Street] and an [Intersection] cell.
    Where the address holds no "digits word word" followed by "word word"
    (for [Street]), no "word word / word word" (for [Intersection]), or is
    missing, the cell is a single space; otherwise it is the captured text
    of the first occurrence, up to the end of its last word.  No appended
    cell is missing. *)
Theorem street_intersection_cols df addresses :
  NoDup (columns df) →
  getcol df (VStr "Address") = Ok addresses →
  (∃ s, VStr s ∈ addresses) →
  forallb ascii_text addresses = true →
  ∃ out, make_streets_intersections_cols df = Ok out ∧
    columns out = columns df ++ [VStr "Street"; VStr "Intersection"] ∧
    nrows out = nrows df ∧
    ∀ i r, records df !! i = Some r →
      ∃ a street intersection,
        addresses !! i = Some a ∧
        records out !! i = Some (r.1, r.2 ++ [street; intersection]) ∧
        extracted_from house_text street_text a street ∧
        extracted_from (λ h, h = []) intersection_text a intersection ∧
        isnull street = false ∧ isnull intersection = false.
Proof.
  intros _ Hcol [s Hs] _.
  assert (Hlen : length addresses = length (records df))
    by (by eapply getcol_length).
  eexists. split; [by eapply make_streets_result, str_accessor_text|].
  split_and!; [done | |].
  - unfold nrows. cbn [records]. rewrite length_zip_with. lia.
  - intros i r Hr.
    destruct (lookup_lt_is_Some_2 addresses i) as [a Ha].
    { rewrite Hlen. by eapply lookup_lt_Some. }
    exists a, (placeholder_or (address_match street_pattern a)),
      (placeholder_or (address_match intersection_pattern a)).
    split_and!.
    + done.
    + cbn [records]. apply lookup_zip_with_Some. by exists r, a.
    + exact (extracted_spec
               [Plus Digit; One Space; Plus Word; One Space; Plus Word; One Space]
               [Plus Word; One Space] a eq_refl eq_refl).
    + exact (extracted_spec []
               [ Plus Word; One Space; Plus Word; One Space; One (Lit "/"%char);
                 One Space; Plus Word; One Space ] a eq_refl eq_refl).
    + by destruct (address_match street_pattern a).
    + by destruct (address_match intersection_pattern a).
Qed.

Lemma street_intersection_cols_witness :
  ∃ out, make_streets_intersections_cols incidents_table = Ok out ∧
    records out
    = [ (VInt 0, [VStr "OAK ST / LAGUNA ST"; VStr "THEFT";
                  VStr " "; VStr "OAK ST / LAGUNA ST"]);
        (VInt 1, [VStr "1500 Block of LOMBARD ST"; VStr "ASSAULT";
                  VStr "LOMBARD ST"; VStr " "]);
        (VInt 2, [VNaN; VStr "ASSAULT"; VStr " "; VStr " "]) ].
Proof.
  destruct (street_intersection_cols incidents_table
              [VStr "OAK ST / LAGUNA ST"; VStr "1500 Block of LOMBARD ST"; VNaN])
    as (out & Hout & _).
  - NoDup_explicit.
  - reflexivity.
  - exists "OAK ST / LAGUNA ST". elem_of_explicit.
  - reflexivity.
  - exists out. split; [exact Hout|].
    vm_compute in Hout. by injection Hout as <-.
Defined.

(** ** Sorting, distinct values and counts *)

Lemma insert_sorted_Permutation {A} (leb : A → A → bool) x l :
  insert_sorted leb x l ≡ₚ x :: l.
Proof.
  induction l as [|y l IH]; simpl; [done|].
  destruct (leb x y); [done|]. rewrite IH. apply Permutation_swap.
Qed.

Lemma sort_by_Permutation {A} (leb : A → A → bool) l : sort_by leb l ≡ₚ l.
Proof.
  unfold sort_by. induction l as [|x l IH]; simpl; [done|].
  by rewrite insert_sorted_Permutation, IH.
Qed.

Lemma elem_of_filter_bool {A} (p : A → bool) l x :
  x ∈ List.filter p l ↔ x ∈ l ∧ p x = true.
Proof. by rewrite !list_elem_of_In, filter_In. Qed.

Lemma NoDup_filter_bool {A} (p : A → bool) l : NoDup l → NoDup (List.filter p l).
Proof.
  induction 1 as [|x l Hx _ IH]; simpl; [constructor|].
  destruct (p x); [|done]. apply NoDup_cons. split; [|done].
  rewrite elem_of_filter_bool. tauto.
Qed.

Lemma elem_of_unique l x : x ∈ unique l ↔ x ∈ l.
Proof.
  induction l as [|y l IH]; simpl; [done|].
  rewrite !elem_of_cons, elem_of_filter_bool, IH, negb_true_iff,
    bool_decide_eq_false.
  destruct (decide (x = y)); tauto.
Qed.

Lemma NoDup_unique l : NoDup (unique l).
Proof.
  induction l as [|y l IH]; simpl; [constructor|].
  apply NoDup_cons. split.
  - rewrite elem_of_filter_bool, negb_true_iff, bool_decide_eq_false. tauto.
  - by apply NoDup_filter_bool.
Qed.

Lemma py_eqb_decide x c : c ≠ VNaN → py_eqb x c = bool_decide (x = c).
Proof.
  intros Hc. by destruct x, c.
Qed.

Lemma py_eqb_missing x : py_eqb x VNaN = false.
Proof. by destruct x. Qed.

Lemma py_neb_zero s : py_neb s (VInt 0) = true ↔ s ≠ VInt 0.
Proof.
  unfold py_neb. rewrite negb_true_iff, py_eqb_decide by done.
  apply bool_decide_eq_false.
Qed.

Lemma value_counts_keys s :
  map fst (value_counts s) ≡ₚ unique (List.filter (λ v, negb (isnull v)) s).
Proof.
  unfold value_counts. rewrite sort_by_Permutation, map_map. simpl.
  by rewrite map_id.
Qed.

Lemma value_counts_NoDup s : NoDup (map fst (value_counts s)).
Proof. rewrite value_counts_keys. apply NoDup_unique. Qed.

Lemma elem_of_value_counts s c n :
  (c, n) ∈ value_counts s ↔
  c ∈ s ∧ c ≠ VNaN ∧ n = Z.of_nat (count_occ value_eq_dec s c).
Proof.
  unfold value_counts. rewrite sort_by_Permutation.
  rewrite list_elem_of_In, in_map_iff. setoid_rewrite <- list_elem_of_In.
  setoid_rewrite elem_of_unique. setoid_rewrite elem_of_filter_bool.
  split.
  - intros (v & [= <- <-] & Hv & Hnn). split_and!; [done| |done].
    intros ->. done.
  - intros (Hc & Hnn & ->). exists c. split_and!; [done..|]. by destruct c.
Qed.

Lemma value_counts_key s c :
  c ∈ map fst (value_counts s) ↔ c ∈ s ∧ c ≠ VNaN.
Proof.
  rewrite value_counts_keys, elem_of_unique, elem_of_filter_bool.
  split; intros [? H]; (split; [done|]); by destruct c.
Qed.

(** ** Records by label *)

Lemma find_label (recs : list (value * row)) c r :
  NoDup (map fst recs) → (c, r) ∈ recs →
  List.find (λ x, bool_decide (x.1 = c)) recs = Some (c, r).
Proof.
  induction recs as [|[c' r'] recs IH]; simpl; intros Hnd Hin.
  - by apply elem_of_nil in Hin.
  - apply NoDup_cons in Hnd as [Hc' Hnd].
    apply elem_of_cons in Hin as [[= <- <-]|Hin].
    + by rewrite bool_decide_eq_true_2.
    + rewrite bool_decide_eq_false_2; [by apply IH|].
      intros ->. apply Hc'. apply list_elem_of_fmap. by exists (c, r).
Qed.

Lemma find_label_None (recs : list (value * row)) c :
  c ∉ map fst recs → List.find (λ x, bool_decide (x.1 = c)) recs = None.
Proof.
  induction recs as [|[c' r'] recs IH]; simpl; intros Hc; [done|].
  apply not_elem_of_cons in Hc as [Hne Hc].
  rewrite bool_decide_eq_false_2 by done. by apply IH.
Qed.

Lemma lookup_row_elem df c r :
  NoDup (frame_index df) → (c, r) ∈ records df → lookup_row df c = r.
Proof. intros Hnd Hin. unfold lookup_row. by rewrite (find_label _ c r). Qed.

Lemma lookup_row_absent df c :
  c ∉ frame_index df → lookup_row df c = replicate (length (columns df)) VNaN.
Proof. intros Hc. unfold lookup_row. by rewrite find_label_None. Qed.

Lemma records_by_label df :
  NoDup (frame_index df) →
  records df = map (λ l, (l, lookup_row df l)) (frame_index df).
Proof.
  intros Hnd. unfold frame_index. rewrite map_map.
  rewrite <- (map_id (records df)) at 1. apply map_ext_in.
  intros [c r] Hin. simpl. f_equal. symmetry.
  apply lookup_row_elem; [done|]. by apply list_elem_of_In.
Qed.

Lemma lookup_row_by_label cols (g : value → row) (L : list value) c :
  NoDup L →
  lookup_row (mkDF cols (map (λ l, (l, g l)) L)) c
  = if bool_decide (c ∈ L) then g c else replicate (length cols) VNaN.
Proof.
  intros Hnd.
  assert (Hidx : frame_index (mkDF cols (map (λ l, (l, g l)) L)) = L).
  { unfold frame_index. cbn [records]. rewrite map_map. apply map_id. }
  case_bool_decide as Hin.
  - apply lookup_row_elem; [by rewrite Hidx|].
    cbn [records]. apply list_elem_of_fmap. by exists c.
  - rewrite lookup_row_absent; [done | by rewrite Hidx].
Qed.

(** ** Two frames side by side *)

Lemma union_index_nil l : union_index [] l = l.
Proof.
  unfold union_index. cbn [app]. induction l as [|x l IH]; cbn [List.filter]; [done|].
  rewrite bool_decide_eq_false_2 by apply not_elem_of_nil. cbn [negb]. by rewrite IH.
Qed.

Lemma elem_of_union_index a b x : x ∈ union_index a b ↔ x ∈ a ∨ x ∈ b.
Proof.
  unfold union_index.
  rewrite elem_of_app, elem_of_filter_bool, negb_true_iff, bool_decide_eq_false.
  destruct (decide (x ∈ a)); tauto.
Qed.

Lemma NoDup_union_index a b : NoDup a → NoDup b → NoDup (union_index a b).
Proof.
  intros Ha Hb. unfold union_index. apply NoDup_app. split_and!.
  - done.
  - intros x Hx. rewrite elem_of_filter_bool, negb_true_iff, bool_decide_eq_false.
    tauto.
  - by apply NoDup_filter_bool.
Qed.

Lemma zip_rows_by_label (g h : value → row) (L : list value) :
  zip_with (λ r r' : value * row, (r.1, r.2 ++ r'.2))
    (zip_with (λ r r' : value * row, (r.1, r.2 ++ r'.2))
       (map (λ l, (l, [])) L) (map (λ l, (l, g l)) L))
    (map (λ l, (l, h l)) L)
  = map (λ l, (l, g l ++ h l)) L.
Proof. induction L as [|l L IH]; simpl; [done|]. by rewrite IH. Qed.

(** [pd.concat([a, b], axis=1)] of two frames with distinct labels: the
    labels of both, each with its cells in [a] followed by its cells in
    [b]. *)
Lemma concat_two a b :
  NoDup (frame_index a) → NoDup (frame_index b) →
  ∃ L, concat_axis1 [a; b]
       = Ok (mkDF (columns a ++ columns b)
               (map (λ l, (l, lookup_row a l ++ lookup_row b l)) L))
     ∧ NoDup L ∧ ∀ c, c ∈ L ↔ c ∈ frame_index a ∨ c ∈ frame_index b.
Proof.
  intros Ha Hb. unfold concat_axis1. cbn [forallb flat_map foldl map andb].
  rewrite app_nil_r.
  case_bool_decide as Heq.
  - exists (frame_index a). split_and!; [|done|intros c; rewrite Heq; tauto].
    cbn [andb]. do 2 f_equal.
    rewrite (records_by_label a Ha), (records_by_label b Hb), Heq.
    apply zip_rows_by_label.
  - cbn [andb]. rewrite !bool_decide_eq_true_2 by done. cbn [andb].
    rewrite union_index_nil.
    exists (union_index (frame_index a) (frame_index b)). split_and!.
    + do 2 f_equal. apply map_ext. intros l. by rewrite app_nil_r.
    + by apply NoDup_union_index.
    + apply elem_of_union_index.
Qed.

(** ** Per-street category counts *)

Lemma count_occ_selected (p : value * row → bool) (jc : nat)
    (recs : list (value * row)) c :
  c ≠ VNaN →
  count_occ value_eq_dec (map (cell jc) (List.filter p recs)) c
  = length (List.filter (λ r, p r && py_eqb (cell jc r) c) recs).
Proof.
  intros Hc. induction recs as [|r recs IH]; [done|].
  cbn [List.filter]. destruct (p r); cbn [andb map count_occ]; [|done].
  rewrite py_eqb_decide by done.
  destruct (value_eq_dec (cell jc r) c) as [Heq|Hne].
  - rewrite bool_decide_eq_true_2 by done. simpl. by rewrite IH.
  - by rewrite bool_decide_eq_false_2.
Qed.

Lemma street_category_count_selected df js jc s c :
  c ≠ VNaN →
  street_category_count df js jc s c
  = count_occ value_eq_dec
      (map (cell jc) (List.filter (λ r, py_eqb (cell js r) s) (records df))) c.
Proof. intros Hc. by rewrite count_occ_selected. Qed.

Lemma street_category_count_missing df js jc s :
  street_category_count df js jc s VNaN = 0%nat.
Proof.
  unfold street_category_count. induction (records df) as [|r recs IH]; [done|].
  cbn [List.filter]. by rewrite py_eqb_missing, andb_false_r.
Qed.

(** The series of one street holds, at every category, the cell of the
    specification. *)
Lemma series_lookup df js jc elem c :
  lookup_row
    (named_series elem
       (value_counts
          (map (cell jc)
             (List.filter (λ r, py_eqb (cell js r) elem) (records df))))) c
  = [count_cell df js jc c elem].
Proof.
  set (sub := map (cell jc) _).
  assert (Hidx : frame_index (named_series elem (value_counts sub))
                 = map fst (value_counts sub)).
  { unfold frame_index, named_series. cbn [records]. by rewrite map_map. }
  unfold count_cell.
  destruct (decide (c ∈ map fst (value_counts sub))) as [Hin|Hnin].
  - pose proof Hin as Hkey. apply value_counts_key in Hkey as [Hsub Hc].
    rewrite (street_category_count_selected df js jc elem c Hc). fold sub.
    rewrite (lookup_row_elem _ c [VInt (Z.of_nat (count_occ value_eq_dec sub c))]).
    + apply list_elem_of_In, (count_occ_In value_eq_dec) in Hsub.
      destruct (count_occ value_eq_dec sub c); [lia | done].
    + rewrite Hidx. apply value_counts_NoDup.
    + unfold named_series. cbn [records]. apply list_elem_of_fmap.
      exists (c, Z.of_nat (count_occ value_eq_dec sub c)). split; [done|].
      by apply elem_of_value_counts.
  - rewrite lookup_row_absent by (by rewrite Hidx). cbn.
    destruct (decide (c = VNaN)) as [->|Hc].
    + by rewrite street_category_count_missing.
    + rewrite (street_category_count_selected df js jc elem c Hc). fold sub.
      rewrite (proj1 (count_occ_not_In value_eq_dec sub c)); [done|].
      rewrite <- list_elem_of_In. intros Hsub. apply Hnin.
      by apply value_counts_key.
Qed.

Lemma count_street_step df js jc processed local_df elem :
  col_pos (VStr "Street") (columns df) = Some js →
  col_pos (VStr "Category") (columns df) = Some jc →
  street_table_inv df js jc processed local_df →
  ∃ local_df', count_street df local_df elem = Ok local_df'
    ∧ street_table_inv df js jc (processed ++ [elem]) local_df'.
Proof.
  intros Hjs Hjc (Hcols & Hnd & Hrows & Hlabels).
  unfold count_street. destruct (py_neb elem (VInt 0)) eqn:Helem.
  - rewrite (getcol_pos df _ js Hjs). cbn [mbind result_bind].
    rewrite map_map, (getcol_pos (select_mask _ df) _ jc Hjc).
    cbn [mbind result_bind].
    rewrite (select_mask_filter (λ r, py_eqb (cell js r) elem) df).
    set (sub := map (cell jc) _).
    destruct (concat_two local_df (named_series elem (value_counts sub)) Hnd)
      as (L & -> & HL & HinL).
    { unfold frame_index, named_series. cbn [records]. rewrite map_map.
      apply value_counts_NoDup. }
    eexists. split; [done|].
    assert (Hidx : ∀ cols (g : value → row),
              frame_index (mkDF cols (map (λ l, (l, g l)) L)) = L).
    { intros. unfold frame_index. cbn [records]. rewrite map_map. apply map_id. }
    assert (Hseries : ∀ c, c ∈ frame_index (named_series elem (value_counts sub))
                           ↔ c ∈ sub ∧ c ≠ VNaN).
    { intros c. unfold frame_index, named_series. cbn [records].
      rewrite map_map. apply value_counts_key. }
    split_and!.
    + cbn [columns named_series]. rewrite Hcols, List.filter_app. cbn [List.filter].
      by rewrite Helem.
    + by rewrite Hidx.
    + intros c. cbn [columns named_series]. rewrite map_app, <- Hrows.
      cbn [map]. rewrite <- (series_lookup df js jc elem c). fold sub.
      rewrite lookup_row_by_label by done. case_bool_decide as Hc; [done|].
      rewrite HinL in Hc.
      rewrite !lookup_row_absent by tauto.
      rewrite length_app. apply replicate_add.
    + intros c. rewrite Hidx, HinL. cbn [columns named_series].
      intros [Hc|Hc].
      * destruct (Hlabels c Hc) as (s & Hs & Hpos). exists s.
        split; [|done]. apply elem_of_app. by left.
      * exists elem. split; [apply elem_of_app; right; apply list_elem_of_here|].
        apply Hseries in Hc as [Hsub Hc].
        rewrite (street_category_count_selected df js jc elem c Hc). fold sub.
        by apply (count_occ_In value_eq_dec), list_elem_of_In.
  - exists local_df. split; [done|]. split_and!; try done.
    rewrite Hcols, List.filter_app. cbn [List.filter]. rewrite Helem.
    by rewrite app_nil_r.
Qed.

Lemma count_street_loop df js jc streets processed local_df :
  col_pos (VStr "Street") (columns df) = Some js →
  col_pos (VStr "Category") (columns df) = Some jc →
  street_table_inv df js jc processed local_df →
  ∃ out, for_each (count_street df) local_df streets = Ok out
    ∧ street_table_inv df js jc (processed ++ streets) out.
Proof.
  intros Hjs Hjc. revert processed local_df.
  induction streets as [|elem streets IH]; intros processed local_df Hinv.
  - exists local_df. by rewrite app_nil_r.
  - destruct (count_street_step df js jc processed local_df elem Hjs Hjc Hinv)
      as (local_df' & Hstep & Hinv').
    destruct (IH _ _ Hinv') as (out & Hloop & Hout).
    exists out. cbn [for_each]. rewrite Hstep. cbn [mbind result_bind].
    split; [done|]. by rewrite cons_middle, app_assoc.
Qed.




(** The blank placeholder that [make_streets_intersections_cols] writes
    for an address without a street is a street like any other here: it
    gets a column, with the counts of the records that carry it. *)
Example blank_street_is_counted :
  get_count_table_by_street streets_table
  = Ok (mkDF [VStr "OAK ST"; VStr " "; VStr "ELM ST"]
          [ (VStr "ASSAULT", [VInt 2; VInt 1; VNaN]);
            (VStr "THEFT", [VInt 1; VNaN; VNaN]);
            (VStr "FRAUD", [VNaN; VNaN; VInt 1]) ]).
Proof. reflexivity. Qed.

(** ** The count table in closed form *)

Lemma getcol_Ok_inv df c s :
  getcol df c = Ok s →
  ∃ j, col_pos c (columns df) = Some j ∧ s = map (cell j) (records df).
Proof.
  unfold getcol. destruct (col_pos c (columns df)) as [j|]; [|done].
  intros [= <-]. by exists j.
Qed.

Lemma map_eq_pointwise {A B C} (f : A → C) (g : B → C) l1 l2 i x y :
  map f l1 = map g l2 → l1 !! i = Some x → l2 !! i = Some y → f x = g y.
Proof.
  intros Heq Hx Hy.
  assert (map f l1 !! i = Some (f x)) as H1 by (by rewrite list_lookup_fmap, Hx).
  rewrite Heq, list_lookup_fmap, Hy in H1. by injection H1.
Qed.

Lemma map_eq_from_pointwise {A B C} (F : A → C) (G : B → C) l1 l2 :
  length l1 = length l2 →
  (∀ i x y, l1 !! i = Some x → l2 !! i = Some y → F x = G y) →
  map F l1 = map G l2.
Proof.
  revert l2. induction l1 as [|x l1 IH]; intros [|y l2] Hlen H; simplify_eq/=;
    [done|].
  f_equal; [by apply (H 0%nat) | apply IH; [done|]].
  intros i x' y' Hx Hy. by apply (H (S i)).
Qed.

Lemma filter_map_bool {A B} (p : B → bool) (F : A → B) l :
  List.filter p (map F l) = map F (List.filter (λ x, p (F x)) l).
Proof.
  induction l as [|x l IH]; simpl; [done|]. destruct (p (F x)); simpl; by rewrite IH.
Qed.

Lemma sum_cells_ones {A} (l : list A) :
  sum_cells (map (λ _, VInt 1) l) = VInt (Z.of_nat (length l)).
Proof.
  unfold sum_cells. f_equal. induction l as [|x l IH]; [done|].
  cbn [map foldr length]. rewrite IH. lia.
Qed.

(** The table handed to [groupby]: a record per input record, holding its
    key and the count 1. *)
Lemma count_table_rows_of_ones df category time jc jt :
  wf df → category ≠ VStr "Count" → time ≠ VStr "Count" →
  col_pos category (columns df) = Some jc →
  col_pos time (columns df) = Some jt →
  ∃ df1, setcol df (VStr "Count") (replicate (nrows df) (VInt 1)) = Ok df1 ∧
    getcols df1 [category; time; VStr "Count"]
    = Ok (mkDF [category; time; VStr "Count"]
            (map (λ r, (r.1, group_key jc jt r ++ [VInt 1])) (records df))).
Proof.
  intros Hwf Hc Ht Hjc Hjt.
  destruct (setcol_spec df (VStr "Count") (replicate (nrows df) (VInt 1)) Hwf)
    as (df1 & Hset & _ & Hn & Hidx & Hcount & Hother); [apply length_replicate|].
  exists df1. split; [done|].
  pose proof (Hother category Hc) as Hcat. pose proof (Hother time Ht) as Htime.
  rewrite (getcol_pos df _ jc Hjc) in Hcat. rewrite (getcol_pos df _ jt Hjt) in Htime.
  apply getcol_Ok_inv in Hcat as (jc1 & Hjc1 & Hcat).
  apply getcol_Ok_inv in Htime as (jt1 & Hjt1 & Htime).
  apply getcol_Ok_inv in Hcount as (jn1 & Hjn1 & Hcount).
  unfold getcols. cbn [traverse]. unfold col_index. rewrite Hjc1, Hjt1, Hjn1.
  cbn [mbind result_bind map]. do 2 f_equal.
  apply map_eq_from_pointwise; [exact Hn|].
  intros i r1 r Hr1 Hr. unfold group_key. cbn [app]. f_equal.
  - assert (map fst (records df1) = map fst (records df)) as Hfst by exact Hidx.
    by apply (map_eq_pointwise _ _ _ _ i r1 r Hfst).
  - f_equal; [|f_equal; [|f_equal]].
    + symmetry. by apply (map_eq_pointwise _ _ _ _ i r r1 Hcat).
    + symmetry. by apply (map_eq_pointwise _ _ _ _ i r r1 Htime).
    + assert (replicate (nrows df) (VInt 1) !! i = Some (VInt 1)) as Hone.
      { apply lookup_replicate_2. apply lookup_lt_Some in Hr. exact Hr. }
      rewrite Hcount, list_lookup_fmap, Hr1 in Hone. by injection Hone.
Qed.

Lemma groupby_counts df category time jc jt :
  category ≠ time → category ≠ VStr "Count" → time ≠ VStr "Count" →
  groupby_sum
    (mkDF [category; time; VStr "Count"]
       (map (λ r, (r.1, group_key jc jt r ++ [VInt 1])) (records df)))
    [category; time]
  = Ok (mkDF [category; time; VStr "Count"]
          (imap (λ i k, (VInt (Z.of_nat i),
                         k ++ [VInt (Z.of_nat (group_size df jc jt k))]))
             (count_groups df jc jt))).
Proof.
  intros Hct Hc Ht. unfold groupby_sum. cbn [columns records].
  assert (existsb (λ c, (1 <? count_occ value_eq_dec
                                [category; time; VStr "Count"] c)%nat)
            [category; time] = false) as ->.
  { cbn [existsb count_occ].
    repeat (destruct (value_eq_dec _ _); try congruence); reflexivity. }
  assert (col_pos category [category; time; VStr "Count"] = Some 0%nat) as H0.
  { cbn [col_pos]. by rewrite decide_True. }
  assert (col_pos time [category; time; VStr "Count"] = Some 1%nat) as H1.
  { cbn [col_pos]. rewrite decide_False by done. by rewrite decide_True. }
  cbn [traverse]. unfold col_index. cbn [columns]. rewrite H0, H1.
  cbn [mbind result_bind].
  assert (List.filter (λ j : nat, negb (bool_decide (j ∈ [0%nat; 1%nat])))
            (seq 0 (length [category; time; VStr "Count"])) = [2%nat]) as ->
    by reflexivity.
  cbn [map nth app]. rewrite map_map.
  assert (Hkeys : map (λ x : value * row,
                         [cell 0 (x.1, group_key jc jt x ++ [VInt 1]);
                          cell 1 (x.1, group_key jc jt x ++ [VInt 1])])
                     (records df)
                  = map (group_key jc jt) (records df))
    by (by apply map_ext).
  rewrite Hkeys. fold (count_groups df jc jt). do 2 f_equal.
  apply imap_ext. intros i k _. cbn beta. do 3 f_equal.
  rewrite filter_map_bool, map_map.
  rewrite (map_ext _ (λ _, VInt 1)) by done.
  by rewrite sum_cells_ones.
Qed.

(** [get_count_table] in closed form: the caller's table gets a [Count]
    column of ones, and the table returned has one record per group, in
    key order, with the size of the group. *)
Lemma count_table_result df category time jc jt :
  wf df →
  category ≠ time → category ≠ VStr "Count" → time ≠ VStr "Count" →
  col_pos category (columns df) = Some jc →
  col_pos time (columns df) = Some jt →
  ∃ df',
    setcol df (VStr "Count") (replicate (nrows df) (VInt 1)) = Ok df' ∧
    get_count_table df category time
    = Ok (df',
          mkDF [category; time; VStr "Count"]
            (imap (λ i k, (VInt (Z.of_nat i),
                           k ++ [VInt (Z.of_nat (group_size df jc jt k))]))
               (count_groups df jc jt))).
Proof.
  intros Hwf Hct Hc Ht Hjc Hjt.
  destruct (count_table_rows_of_ones df category time jc jt Hwf Hc Ht Hjc Hjt)
    as (df1 & Hset & Hsub).
  exists df1. split; [done|]. unfold get_count_table.
  rewrite Hset. cbn [mbind result_bind]. rewrite Hsub. cbn [mbind result_bind].
  by rewrite groupby_counts.
Qed.

Lemma elem_of_unique_keys l k : k ∈ unique_keys l ↔ k ∈ l.
Proof.
  induction l as [|y l IH]; simpl; [done|].
  rewrite !elem_of_cons, elem_of_filter_bool, IH, negb_true_iff,
    bool_decide_eq_false.
  destruct (decide (k = y)); tauto.
Qed.

Lemma NoDup_unique_keys l : NoDup (unique_keys l).
Proof.
  induction l as [|y l IH]; simpl; [constructor|].
  apply NoDup_cons. split.
  - rewrite elem_of_filter_bool, negb_true_iff, bool_decide_eq_false. tauto.
  - by apply NoDup_filter_bool.
Qed.

Lemma elem_of_count_groups df jc jt k :
  k ∈ count_groups df jc jt ↔
  ∃ r, r ∈ records df ∧ k = group_key jc jt r
       ∧ cell jc r ≠ VNaN ∧ cell jt r ≠ VNaN.
Proof.
  unfold count_groups.
  rewrite sort_by_Permutation, elem_of_unique_keys, elem_of_filter_bool,
    list_elem_of_fmap.
  split.
  - intros [(r & -> & Hr) Hnn]. exists r. split_and!; [done..| |];
      intros E; unfold group_key in Hnn; rewrite E in Hnn; simpl in Hnn;
      [done | by destruct (cell jc r)].
  - intros (r & Hr & -> & Hc & Ht). split; [by exists r|].
    unfold group_key. simpl. by destruct (cell jc r), (cell jt r).
Qed.

Lemma NoDup_count_groups df jc jt : NoDup (count_groups df jc jt).
Proof.
  unfold count_groups. rewrite sort_by_Permutation. apply NoDup_unique_keys.
Qed.

Lemma group_size_pos df jc jt r :
  r ∈ records df → (0 < group_size df jc jt (group_key jc jt r))%nat.
Proof.
  intros Hr. unfold group_size.
  assert (r ∈ List.filter
                (λ r', bool_decide (group_key jc jt r' = group_key jc jt r))
                (records df)) as Hin.
  { apply elem_of_filter_bool. split; [done|]. by apply bool_decide_eq_true. }
  destruct (List.filter _ (records df)); [by apply elem_of_nil in Hin|].
  simpl. lia.
Qed.

Lemma count_groups_keys df jc jt :
  map (λ r : value * row, take 2 r.2)
    (imap (λ (i : nat) k, (VInt (Z.of_nat i),
                   k ++ [VInt (Z.of_nat (group_size df jc jt k))]))
       (count_groups df jc jt))
  = count_groups df jc jt.
Proof.
  apply list_eq. intros i. rewrite list_lookup_fmap, list_lookup_imap.
  destruct (count_groups df jc jt !! i) as [k|] eqn:Hk; [|done]. simpl.
  apply list_elem_of_lookup_2, elem_of_count_groups in Hk as (r & _ & -> & _).
  done.
Qed.

(** ** Rows and columns under the transforms *)

Lemma extends_columns_trans t1 t2 a b c :
  extends_columns t1 a b → extends_columns t2 b c →
  extends_columns (t1 ++ t2) a c.
Proof.
  intros (Hn1 & Hi1 & Hc1) (Hn2 & Hi2 & Hc2). split_and!; [congruence..|].
  intros x Hx. apply not_elem_of_app in Hx as [Hx1 Hx2].
  by rewrite Hc2, Hc1.
Qed.

Lemma extends_columns_weaken t t' a b :
  (∀ x, x ∈ t → x ∈ t') → extends_columns t a b → extends_columns t' a b.
Proof.
  intros Hsub (Hn & Hi & Hc). split_and!; [done..|].
  intros x Hx. apply Hc. intros Hin. by apply Hx, Hsub.
Qed.

Lemma setcol_extends df c vals out :
  wf df → setcol df c vals = Ok out → wf out ∧ extends_columns [c] df out.
Proof.
  intros Hwf Hset.
  assert (Hlen : length vals = nrows df).
  { unfold setcol in Hset.
    destruct (length vals =? nrows df)%nat eqn:E; [|done]. by apply Nat.eqb_eq. }
  destruct (setcol_spec df c vals Hwf Hlen) as (out' & Hout' & Hwf' & Hn & Hi & _ & Hc).
  rewrite Hset in Hout'. injection Hout' as <-.
  split; [done|]. split_and!; [done..|].
  intros c' Hc'. apply Hc. intros ->. apply Hc', list_elem_of_here.
Qed.

Lemma dt_col_extends df c target f out :
  wf df → dt_col df c target f = Ok out →
  wf out ∧ extends_columns [target] df out.
Proof.
  intros Hwf H. unfold dt_col in H.
  apply bind_Ok in H as (col & _ & H). apply bind_Ok in H as (ts & _ & H).
  by eapply setcol_extends.
Qed.

Lemma getattr_col_Ok df c s : getattr_col df c = Ok s → getcol df (VStr c) = Ok s.
Proof. unfold getattr_col. by destruct (getcol df (VStr c)). Qed.

Lemma str_accessor_Ok s s' : str_accessor s = Ok s' → s' = s.
Proof.
  unfold str_accessor. destruct s as [|v s]; [congruence|].
  destruct (existsb _ _); congruence.
Qed.

Lemma col_pos_app_notin c cols extra :
  c ∉ extra → col_pos c (cols ++ extra) = col_pos c cols.
Proof.
  revert cols. induction extra as [|x extra IH]; intros cols Hc.
  - by rewrite app_nil_r.
  - apply not_elem_of_cons in Hc as [Hne Hc].
    rewrite cons_middle, app_assoc, IH by done. by apply col_pos_app_other.
Qed.

Lemma cells_extend_other {B} (f : B → row) (n j : nat)
    (recs : list (value * row)) (l : list B) :
  length l = length recs →
  Forall (λ r, length r.2 = n) recs → (j < n)%nat →
  map (cell j) (zip_with (λ r a, (r.1, r.2 ++ f a)) recs l) = map (cell j) recs.
Proof.
  intros Hlen Hwf Hj. revert l Hlen.
  induction Hwf as [|r recs Hr _ IH]; intros [|a l] Hlen; simplify_eq/=; [done|].
  f_equal; [|by apply IH]. unfold cell; simpl.
  rewrite !nth_lookup, lookup_app_l by lia. done.
Qed.

Lemma streets_extends df out :
  wf df → make_streets_intersections_cols df = Ok out →
  extends_columns [VStr "Street"; VStr "Intersection"] df out.
Proof.
  intros Hwf H. pose proof H as H'. unfold make_streets_intersections_cols in H'.
  apply bind_Ok in H' as (addresses & Hcol%getattr_col_Ok & H').
  apply bind_Ok in H' as (a' & Hstr & _).
  pose proof (str_accessor_Ok _ _ Hstr) as ->.
  rewrite (make_streets_result df addresses Hcol Hstr) in H.
  injection H as <-.
  assert (Hlen : length addresses = length (records df))
    by (by eapply getcol_length).
  split_and!.
  - unfold nrows. cbn [records]. rewrite length_zip_with. lia.
  - unfold frame_index. cbn [records].
    by apply (zip_with_fst_index
                (λ r a, r.2 ++
                   [ placeholder_or (address_match street_pattern a);
                     placeholder_or (address_match intersection_pattern a) ])).
  - intros c Hc. unfold getcol. cbn [columns records].
    rewrite col_pos_app_notin by done.
    destruct (col_pos c (columns df)) as [j|] eqn:Hj; [|done]. f_equal.
    eapply cells_extend_other; [done | exact Hwf |].
    apply col_pos_Some in Hj. by eapply lookup_lt_Some.
Qed.

Lemma length_unique_keys l : (length (unique_keys l) ≤ length l)%nat.
Proof.
  induction l as [|k l IH]; simpl; [done|].
  pose proof (List.filter_length_le
                (λ k', negb (bool_decide (k' = k))) (unique_keys l)). lia.
Qed.

Lemma groupby_sum_rows df keys out :
  groupby_sum df keys = Ok out → (nrows out ≤ nrows df)%nat.
Proof.
  unfold groupby_sum. destruct (existsb _ keys); [done|]. intros H.
  apply bind_Ok in H as (ks & _ & H). injection H as <-.
  unfold nrows. cbn [records]. rewrite length_imap.
  rewrite (Permutation_length (sort_by_Permutation _ _)).
  etrans; [apply length_unique_keys|].
  etrans; [apply List.filter_length_le|]. by rewrite length_map.
Qed.

Lemma count_table_rows df category time df' out :
  wf df → get_count_table df category time = Ok (df', out) →
  extends_columns [VStr "Count"] df df' ∧ (nrows out ≤ nrows df)%nat.
Proof.
  intros Hwf H. unfold get_count_table in H.
  apply bind_Ok in H as (df1 & Hset & H).
  apply bind_Ok in H as (sub & Hsub & H).
  apply bind_Ok in H as (g & Hg & H). injection H as <- <-.
  apply setcol_extends in Hset as [_ Hext]; [|done].
  split; [done|]. apply groupby_sum_rows in Hg.
  unfold getcols in Hsub. apply bind_Ok in Hsub as (js & _ & Hsub).
  injection Hsub as <-. unfold nrows in *. cbn [records] in Hg.
  rewrite length_map in Hg. destruct Hext as (Hn & _). unfold nrows in Hn. lia.
Qed.

Lemma time_cols_extends to_datetime df timestamp_column out :
  wf df → make_time_cols to_datetime df timestamp_column = Ok out →
  extends_columns (time_columns timestamp_column) df out.
Proof.
  intros Hwf H. unfold make_time_cols in H.
  apply bind_Ok in H as (raw & _ & H). apply bind_Ok in H as (ts & _ & H).
  apply bind_Ok in H as (df1 & [Hwf1 H1]%setcol_extends & H); [|done].
  apply bind_Ok in H as (df2 & [Hwf2 H2]%dt_col_extends & H); [|done].
  apply bind_Ok in H as (df3 & [Hwf3 H3]%dt_col_extends & H); [|done].
  apply bind_Ok in H as (df4 & [Hwf4 H4]%dt_col_extends & H); [|done].
  apply bind_Ok in H as (df5 & [Hwf5 H5]%dt_col_extends & H); [|done].
  apply bind_Ok in H as (df6 & [Hwf6 H6]%dt_col_extends & H); [|done].
  apply dt_col_extends in H as [_ H7]; [|done].
  pose proof (extends_columns_trans _ _ _ _ _ H1 H2) as H12.
  pose proof (extends_columns_trans _ _ _ _ _ H12 H3) as H13.
  pose proof (extends_columns_trans _ _ _ _ _ H13 H4) as H14.
  pose proof (extends_columns_trans _ _ _ _ _ H14 H5) as H15.
  pose proof (extends_columns_trans _ _ _ _ _ H15 H6) as H16.
  exact (extends_columns_trans _ _ _ _ _ H16 H7).
Qed.

Lemma py_eqb_true a b : py_eqb a b = true → a = b.
Proof.
  destruct a, b; simpl; try done; by intros ?%bool_decide_eq_true.
Qed.

Lemma py_eqb_refl a : a ≠ VNaN → py_eqb a a = true.
Proof. intros Ha. rewrite py_eqb_decide by done. by apply bool_decide_eq_true. Qed.

Lemma street_category_count_pos df js jc s c :
  (0 < street_category_count df js jc s c)%nat ↔
  ∃ r, r ∈ records df ∧ cell js r = s ∧ cell jc r = c ∧ s ≠ VNaN ∧ c ≠ VNaN.
Proof.
  unfold street_category_count. split.
  - intros Hpos.
    destruct (List.filter _ (records df)) as [|r rs] eqn:E; [simpl in Hpos; lia|].
    assert (Hr : r ∈ List.filter
                   (λ r, py_eqb (cell js r) s && py_eqb (cell jc r) c) (records df))
      by (rewrite E; apply list_elem_of_here).
    apply elem_of_filter_bool in Hr as [Hr [Hs Hc]%andb_prop].
    exists r. split_and!; [done | by apply py_eqb_true | by apply py_eqb_true | |].
    + intros ->. by rewrite py_eqb_missing in Hs.
    + intros ->. by rewrite py_eqb_missing in Hc.
  - intros (r & Hr & <- & <- & Hs & Hc).
    assert (Hin : r ∈ List.filter
                    (λ r', py_eqb (cell js r') (cell js r)
                           && py_eqb (cell jc r') (cell jc r)) (records df)).
    { apply elem_of_filter_bool. split; [done|]. by rewrite !py_eqb_refl. }
    destruct (List.filter _ (records df)); [by apply elem_of_nil in Hin|].
    simpl. lia.
Qed.

(** The record labels of the per-street table: the categories of the
    records that have a street other than 0, each once. *)
Lemma by_street_rows df js jc :
  col_pos (VStr "Street") (columns df) = Some js →
  col_pos (VStr "Category") (columns df) = Some jc →
  ∃ out, get_count_table_by_street df = Ok out ∧ NoDup (frame_index out) ∧
    ∀ c, c ∈ frame_index out ↔
         ∃ r, r ∈ records df ∧ cell jc r = c ∧ c ≠ VNaN
              ∧ cell js r ≠ VNaN ∧ cell js r ≠ VInt 0.
Proof.
  intros Hjs Hjc. unfold get_count_table_by_street.
  rewrite (getcol_pos df _ js Hjs). cbn [mbind result_bind].
  destruct (count_street_loop df js jc (unique (map (cell js) (records df)))
              [] (mkDF [] []) Hjs Hjc)
    as (out & Hout & Hcols & Hnd & Hrows & Hlabels).
  { split_and!; [done | constructor | done |].
    intros c Hc. by apply elem_of_nil in Hc. }
  rewrite app_nil_l in Hcols.
  exists out. split_and!; [done..|].
  intros c. split.
  - intros (s & Hs & Hpos)%Hlabels.
    apply street_category_count_pos in Hpos as (r & Hr & <- & <- & Hns & Hnc).
    exists r. split_and!; [done..|].
    rewrite Hcols, elem_of_filter_bool, py_neb_zero in Hs. tauto.
  - intros (r & Hr & <- & Hnc & Hns & Hn0).
    destruct (decide (cell jc r ∈ frame_index out)) as [|Hc]; [done|].
    exfalso. pose proof (Hrows (cell jc r)) as Hrow.
    rewrite lookup_row_absent in Hrow by done.
    assert (cell js r ∈ columns out) as Hs.
    { rewrite Hcols, elem_of_filter_bool, elem_of_unique, py_neb_zero.
      split; [|done]. apply list_elem_of_fmap. by exists r. }
    assert (count_cell df js jc (cell jc r) (cell js r)
            ∈ replicate (length (columns out)) VNaN) as Hin.
    { rewrite Hrow. apply list_elem_of_fmap. by eexists. }
    apply elem_of_replicate in Hin as [Hin _]. unfold count_cell in Hin.
    assert (0 < street_category_count df js jc (cell js r) (cell jc r))%nat
      as Hpos by (apply street_category_count_pos; by exists r).
    destruct (street_category_count df js jc (cell js r) (cell jc r)); [lia | done].
Qed.

Lemma count_table_Ok_inv df category time df' out :
  get_count_table df category time = Ok (df', out) →
  category ≠ time ∧ category ≠ VStr "Count" ∧ time ≠ VStr "Count".
Proof.
  intros H. unfold get_count_table in H.
  apply bind_Ok in H as (df1 & _ & H).
  apply bind_Ok in H as (sub & Hsub & H).
  apply bind_Ok in H as (g & Hg & _).
  unfold getcols in Hsub. apply bind_Ok in Hsub as (js & _ & Hsub).
  injection Hsub as <-. unfold groupby_sum in Hg. cbn [columns] in Hg.
  destruct (existsb _ [category; time]) eqn:E; [done|]. clear Hg.
  cbn [existsb count_occ] in E.
  repeat match type of E with
         | context [value_eq_dec ?a ?b] => destruct (value_eq_dec a b)
         end; cbn in E; try discriminate E; split_and!; congruence.
Qed.

(** The table [get_count_table] returns has one record for each pair of
    category and time of the input in which nothing is missing. *)
Lemma count_table_keys df category time jc jt df' out :
  wf df →
  col_pos category (columns df) = Some jc →
  col_pos time (columns df) = Some jt →
  get_count_table df category time = Ok (df', out) →
  columns out = [category; time; VStr "Count"] ∧
  NoDup (map (λ r : value * row, take 2 r.2) (records out)) ∧
  ∀ k, k ∈ map (λ r : value * row, take 2 r.2) (records out) ↔
       ∃ r, r ∈ records df ∧ k = [cell jc r; cell jt r]
            ∧ cell jc r ≠ VNaN ∧ cell jt r ≠ VNaN.
Proof.
  intros Hwf Hjc Hjt H.
  destruct (count_table_Ok_inv _ _ _ _ _ H) as (Hct & Hc & Ht).
  destruct (count_table_result df category time jc jt Hwf Hct Hc Ht Hjc Hjt)
    as (df1 & _ & Hout).
  rewrite Hout in H. injection H as _ <-. cbn [columns records].
  rewrite count_groups_keys.
  split_and!; [done | apply NoDup_count_groups |].
  intros k. apply elem_of_count_groups.
Qed.

(** C6, as the code has it.  On a table with distinct column labels, the
    column-deriving transforms (street and intersection extraction, time
    decomposition, weekday mapping, address encoding, season mapping)
    return, when they return, the records of the input under the same
    labels, with every column outside the ones they write as it was;
    outlier removal returns a subsequence of the records under the same
    header, and so does NaN selection, on every table.
    [get_count_table] writes only the [Count] column into its input; the
    table it returns, for key columns of one kind each, has the columns
    category, time and [Count] and exactly one record for each pair of
    category and time that occurs in the input with neither missing, so
    at most as many records as the input.  [get_count_table_by_street]
    returns a table whose record labels are, each once, the categories
    that are not missing of the records whose street is neither missing
    nor 0. *)
Theorem transforms_rows_and_columns df :
  wf df →
  (columns (get_nan_records df) = columns df
   ∧ records (get_nan_records df) `sublist_of` records df) ∧
  (NoDup (columns df) →
   (∀ out, make_streets_intersections_cols df = Ok out →
      extends_columns [VStr "Street"; VStr "Intersection"] df out) ∧
   (∀ to_datetime c out, make_time_cols to_datetime df c = Ok out →
      extends_columns (time_columns c) df out) ∧
   (∀ c out, make_weekday_to_num df c = Ok out →
      extends_columns [VStr "weekdayNumerical"] df out) ∧
   (∀ delimeter c out, make_address_encoding_col df delimeter c = Ok out →
      extends_columns [VStr "address_encoded"] df out) ∧
   (∀ c out, make_seasons_col df c = Ok out →
      extends_columns [VStr "Season"] df out) ∧
   (∀ c up low out, get_outlier_removed_col df c up low = Ok out →
      columns out = columns df ∧ records out `sublist_of` records df) ∧
   (∀ category time jc jt df' out,
      col_pos category (columns df) = Some jc →
      col_pos time (columns df) = Some jt →
      one_kind (map (cell jc) (records df)) →
      one_kind (map (cell jt) (records df)) →
      get_count_table df category time = Ok (df', out) →
      extends_columns [VStr "Count"] df df' ∧
      columns out = [category; time; VStr "Count"] ∧
      NoDup (map (λ r : value * row, take 2 r.2) (records out)) ∧
      (∀ k, k ∈ map (λ r : value * row, take 2 r.2) (records out) ↔
            ∃ r, r ∈ records df ∧ k = [cell jc r; cell jt r]
                 ∧ cell jc r ≠ VNaN ∧ cell jt r ≠ VNaN) ∧
      (nrows out ≤ nrows df)%nat) ∧
   (∀ js jc, col_pos (VStr "Street") (columns df) = Some js →
      col_pos (VStr "Category") (columns df) = Some jc →
      ∃ out, get_count_table_by_street df = Ok out ∧ NoDup (frame_index out) ∧
        ∀ c, c ∈ frame_index out ↔
             ∃ r, r ∈ records df ∧ cell jc r = c ∧ c ≠ VNaN
                  ∧ cell js r ≠ VNaN ∧ cell js r ≠ VInt 0)).
Proof.
  intros Hwf. split; [split; [done | apply select_mask_sublist]|].
  intros _. split_and!.
  - intros out. by apply streets_extends.
  - intros to_datetime c out. by apply time_cols_extends.
  - intros c out H. unfold make_weekday_to_num in H.
    apply bind_Ok in H as (days & _ & H). apply bind_Ok in H as (nums & _ & H).
    apply setcol_extends in H as [_ H]; done.
  - intros d c out H. unfold make_address_encoding_col in H.
    apply bind_Ok in H as (col & _ & H). apply bind_Ok in H as (address & _ & H).
    apply setcol_extends in H as [_ H]; done.
  - intros c out H. unfold make_seasons_col in H.
    apply bind_Ok in H as (months & _ & H).
    apply bind_Ok in H as (df1 & [Hwf1 H1]%setcol_extends & H); [|done].
    apply bind_Ok in H as (season & _ & H).
    apply setcol_extends in H as [_ H2]; [|done].
    eapply extends_columns_weaken;
      [|exact (extends_columns_trans _ _ _ _ _ H1 H2)].
    intros x Hx. apply elem_of_app in Hx as [Hx|Hx]; exact Hx.
  - intros c up low out. apply outlier_sublist.
  - intros category time jc jt df' out Hjc Hjt _ _ H.
    destruct (count_table_rows df category time df' out Hwf H) as [Hext Hle].
    destruct (count_table_keys df category time jc jt df' out Hwf Hjc Hjt H)
      as (Hcols & Hnd & Hkeys).
    by split_and!.
  - intros js jc. apply by_street_rows.
Qed.

Lemma transforms_rows_and_columns_witness :
  (∃ out, make_seasons_col months_table (VStr "Month") = Ok out ∧
     extends_columns [VStr "Season"] months_table out)
  ∧ ∃ df' out,
      get_count_table counts_table (VStr "cat") (VStr "day") = Ok (df', out) ∧
      NoDup (map (λ r : value * row, take 2 r.2) (records out)) ∧
      (nrows out ≤ nrows counts_table)%nat.
Proof.
  split.
  - eexists. split; [reflexivity|].
    refine (proj1 (proj2 (proj2 (proj2 (proj2
      (proj2 (transforms_rows_and_columns months_table _) _)))))
      (VStr "Month") _ eq_refl).
    + repeat constructor.
    + NoDup_explicit.
  - eexists _, _. split; [reflexivity|].
    refine (let H := proj1 (proj2 (proj2 (proj2 (proj2 (proj2 (proj2
      (proj2 (transforms_rows_and_columns counts_table _) _)))))))
      (VStr "cat") (VStr "day") 0%nat 1%nat _ _ eq_refl eq_refl _ _ eq_refl in
      conj (proj1 (proj2 (proj2 H))) (proj2 (proj2 (proj2 (proj2 H))))).
    + repeat constructor.
    + NoDup_explicit.
    + by exists KStr.
    + by exists KInt.
Defined.

(** C6, as stated, fails: [get_count_table] is no filter, and the table
    it returns for three records in two groups has two records. *)
Lemma count_table_changes_row_count :
  ∃ df' out,
    get_count_table counts_table (VStr "cat") (VStr "day") = Ok (df', out) ∧
    out = mkDF [VStr "cat"; VStr "day"; VStr "Count"]
            [ (VInt 0, [VStr "A"; VInt 1; VInt 2]);
              (VInt 1, [VStr "B"; VInt 1; VInt 1]) ] ∧
    nrows counts_table = 3%nat ∧ nrows out = 2%nat ∧
    nrows out ≠ nrows counts_table.
Proof.
  do 2 eexists. split; [reflexivity|]. split_and!; [reflexivity..|].
  discriminate.
Qed.

(** * Further properties of the transforms *)

(** ** Address encoding *)



Lemma traverse_map_Ok {A B C} (f : B → result C) (g : A → B) (h : A → C) l :
  (∀ x, f (g x) = Ok (h x)) → traverse f (map g l) = Ok (map h l).
Proof.
  intros H. induction l as [|x l IH]; [done|]. simpl. by rewrite H, IH.
Qed.

(** When every outcome of [f] is a result or the one exception [e], a
    failing element makes the traversal raise [e]. *)
Lemma traverse_raises {A B} (f : A → result B) e l :
  (∀ x, f x = Raise e ∨ ∃ y, f x = Ok y) →
  (∃ x, x ∈ l ∧ f x = Raise e) → traverse f l = Raise e.
Proof.
  intros Hf (x & Hin & Hx). induction Hin as [x l|x z l _ IH]; simpl.
  - by rewrite Hx.
  - rewrite IH by done. by destruct (Hf z) as [->|[y ->]].
Qed.





(** ** Accuracy: failures, bounds and symmetry *)

Lemma collisions_loop_short pre_p pre_a p a (collisions : Z) :
  length pre_p = length pre_a → (length p < length a)%nat →
  for_each (count_collision (pre_p ++ p) (pre_a ++ a)) collisions
    (seq (length pre_a) (length a))
  = Raise IndexError.
Proof.
  revert pre_p pre_a p collisions.
  induction a as [|x a IH]; intros pre_p pre_a p c Hpre Hlen; [simpl in Hlen; lia|].
  cbn [length seq for_each]. destruct p as [|y p].
  - unfold count_collision. rewrite py_index_middle. cbn [mbind result_bind].
    unfold py_index. rewrite app_nil_r, lookup_ge_None_2 by lia. done.
  - rewrite count_collision_middle by done. cbn [mbind result_bind].
    rewrite (cons_middle y pre_p p), (cons_middle x pre_a a), !app_assoc.
    replace (S (length pre_a)) with (length (pre_a ++ [x]))
      by (rewrite length_app; simpl; lia).
    apply IH; [rewrite !length_app; simpl; lia | simpl in Hlen; lia].
Qed.

(** X3.  With fewer predictions than answers [get_true_pred_perc] raises
    [IndexError]: the loop runs over the answers and reads a prediction
    that is not there. *)
Theorem accuracy_too_few_predictions predictions answers :
  (length predictions < length answers)%nat →
  get_true_pred_perc predictions answers = Raise IndexError.
Proof.
  intros Hlen. unfold get_true_pred_perc.
  pose proof (collisions_loop_short [] [] predictions answers 0 eq_refl Hlen) as H.
  simpl in H. by rewrite H.
Qed.

Lemma accuracy_too_few_predictions_witness :
  get_true_pred_perc (map PyVal [VInt 1]) (map PyVal [VInt 1; VInt 0]) = Raise IndexError.
Proof.
  apply (accuracy_too_few_predictions (map PyVal [VInt 1]) (map PyVal [VInt 1; VInt 0])). simpl. lia.
Defined.

Lemma matching_positions_le predictions answers :
  (matching_positions predictions answers ≤ length answers)%nat.
Proof.
  unfold matching_positions.
  etrans; [apply List.filter_length_le|]. rewrite length_combine. lia.
Qed.

Lemma matching_positions_all predictions answers :
  matching_positions predictions answers = length answers ↔
  ∀ i a, answers !! i = Some a →
         ∃ p, predictions !! i = Some p ∧ obj_eqb a p = true.
Proof.
  revert predictions. induction answers as [|x a IH]; intros p.
  - split; [by intros _ i a' ? | by destruct p].
  - destruct p as [|y p].
    + split; [done|]. intros H. by destruct (H 0%nat x eq_refl) as (? & ? & _).
    + rewrite matching_positions_cons. pose proof (matching_positions_le p a).
      cbn [length]. split.
      * intros Hall. destruct (obj_eqb x y) eqn:Hxy; [|lia].
        intros [|i] a' Ha'; simplify_eq/=; [by eauto|].
        apply (proj1 (IH p)); [lia | done].
      * intros Hall. destruct (Hall 0%nat x eq_refl) as (y' & [= <-] & ->).
        simpl. f_equal. apply IH. intros i a' Ha'. by apply (Hall (S i)).
Qed.

Lemma accuracy_Ok_inv predictions answers q :
  get_true_pred_perc predictions answers = Ok q →
  (0 < length answers ≤ length predictions)%nat ∧
  q = (Qc_of_Z (Z.of_nat (matching_positions predictions answers) * 100)
       / Qc_of_Z (Z.of_nat (length answers)))%Qc.
Proof.
  intros H.
  destruct (decide (length predictions < length answers)%nat) as [Hlt|Hge].
  { unfold get_true_pred_perc in H.
    pose proof (collisions_loop_short [] [] predictions answers 0 eq_refl Hlt) as E.
    simpl in E. by rewrite E in H. }
  rewrite accuracy_as_division in H by lia. unfold true_div in H.
  destruct (Z.of_nat (length answers) =? 0) eqn:E; [done|].
  apply Z.eqb_neq in E. injection H as <-. split; [lia | done].
Qed.

(** X4.  A percentage returned by [get_true_pred_perc] lies between 0 and
    100; it is 100 exactly when every answer equals its prediction under
    Python's [==] ([None] equals [None], [NaN] equals nothing). *)
Theorem accuracy_bounds predictions answers q :
  get_true_pred_perc predictions answers = Ok q →
  (0 ≤ q)%Qc ∧ (q ≤ Qc_of_Z 100)%Qc ∧
  (q = Qc_of_Z 100 ↔
   ∀ i a, answers !! i = Some a →
          ∃ p, predictions !! i = Some p ∧ obj_eqb a p = true).
Proof.
  intros H. apply accuracy_Ok_inv in H as [Hlen ->].
  pose proof (matching_positions_le predictions answers) as Hm.
  set (m := matching_positions predictions answers) in *.
  set (n := length answers) in *.
  assert (Hn : (0 < Qc_of_Z (Z.of_nat n))%Qc).
  { rewrite <- Z2Qc_inj_0. apply (proj1 (Z2Qc_inj_lt 0 (Z.of_nat n))). lia. }
  assert (Hn0 : Qc_of_Z (Z.of_nat n) ≠ 0%Qc).
  { intros E. rewrite E in Hn. by apply Qclt_not_eq in Hn. }
  split_and!.
  - unfold Qcdiv. apply Qcmult_nonneg_nonneg.
    + rewrite <- Z2Qc_inj_0. apply (proj1 (Z2Qc_inj_le 0 _)). lia.
    + by apply Qclt_le_weak, Qcinv_pos.
  - apply (Qcmult_le_mono_pos_r _ _ _ Hn).
    rewrite (Qcmult_comm (_ / _)), Qcmult_div_r by done.
    rewrite <- Z2Qc_inj_mul. apply (proj1 (Z2Qc_inj_le _ _)). lia.
  - rewrite <- matching_positions_all. fold m n. split.
    + intros Hq.
      assert (Qc_of_Z (Z.of_nat m * 100) = Qc_of_Z (100 * Z.of_nat n)) as Heq.
      { etrans; [symmetry; apply (Qcmult_div_r _ _ Hn0)|].
        rewrite Hq, <- Z2Qc_inj_mul. f_equal. lia. }
      apply Z2Qc_inj in Heq. lia.
    + intros ->. rewrite Z.mul_comm, Z2Qc_inj_mul. by apply Qcdiv_mult_l.
Qed.

Lemma accuracy_bounds_witness :
  (0 ≤ Qc_of_Z 50)%Qc ∧ (Qc_of_Z 50 ≤ Qc_of_Z 100)%Qc.
Proof.
  destruct (accuracy_bounds (map PyVal [VInt 1; VInt 0; VInt 1; VInt 1])
              (map PyVal [VInt 1; VInt 1; VInt 1; VInt 0]) (Qc_of_Z 50)) as (H0 & H100 & _).
  - apply (f_equal Ok). apply Qc_is_canon. reflexivity.
  - split; [exact H0 | exact H100].
Defined.

Lemma py_eqb_sym a b : py_eqb a b = py_eqb b a.
Proof.
  destruct a, b; simpl; try done; apply bool_decide_ext; split; congruence.
Qed.

Lemma obj_eqb_sym a b : obj_eqb a b = obj_eqb b a.
Proof. destruct a, b; simpl; try done. apply py_eqb_sym. Qed.

Lemma matching_positions_sym l1 l2 :
  matching_positions l1 l2 = matching_positions l2 l1.
Proof.
  revert l2. induction l1 as [|x l1 IH]; intros [|y l2]; try done.
  by rewrite !matching_positions_cons, IH, obj_eqb_sym.
Qed.

(** X5.  For two sequences of one length the score does not depend on
    which is passed as predictions and which as answers. *)
Theorem accuracy_symmetric predictions answers :
  length predictions = length answers →
  get_true_pred_perc predictions answers = get_true_pred_perc answers predictions.
Proof.
  intros Hlen. rewrite !accuracy_as_division by lia.
  by rewrite matching_positions_sym, Hlen.
Qed.

Lemma accuracy_symmetric_witness :
  get_true_pred_perc (map PyVal [VInt 1; VInt 0]) (map PyVal [VInt 1; VInt 1])
  = get_true_pred_perc (map PyVal [VInt 1; VInt 1]) (map PyVal [VInt 1; VInt 0]).
Proof.
  apply (accuracy_symmetric (map PyVal [VInt 1; VInt 0]) (map PyVal [VInt 1; VInt 1])). reflexivity.
Defined.

(** ** Outlier removal: failures and composition *)

Lemma comparableb_spec v : comparableb v = true ↔ comparable v.
Proof. by destruct v. Qed.

Lemma forallb_Forall_bool {A} (p : A → bool) l :
  forallb p l = true ↔ Forall (λ x, p x = true) l.
Proof.
  induction l as [|x l IH]; simpl; [by split; [constructor|]|].
  rewrite andb_true_iff, Forall_cons, IH. tauto.
Qed.

Lemma forallb_false_elem {A} (p : A → bool) l :
  forallb p l = false → ∃ x, x ∈ l ∧ p x = false.
Proof.
  induction l as [|x l IH]; simpl; [done|]. intros H.
  destruct (p x) eqn:Hx.
  - destruct (IH H) as (y & Hy & Hpy). exists y. split; [by right | done].
  - exists x. split; [by left | done].
Qed.

(** [get_outlier_removed_col] in closed form. *)
Lemma outlier_result df column up low :
  get_outlier_removed_col df column up low
  = match col_pos column (columns df) with
    | None => Raise KeyError
    | Some j =>
        if forallb (λ r, comparableb (cell j r)) (records df)
        then Ok (mkDF (columns df)
                   (List.filter (strictly_between low up j) (records df)))
        else Raise TypeError
    end.
Proof.
  destruct (col_pos column (columns df)) as [j|] eqn:Hpos.
  - destruct (forallb _ (records df)) eqn:Hnum.
    + apply outlier_mask; [done|]. apply forallb_Forall_bool in Hnum.
      eapply Forall_impl; [exact Hnum|]. intros r. apply comparableb_spec.
    + unfold get_outlier_removed_col. rewrite (getcol_pos df _ j Hpos).
      cbn [mbind result_bind].
      rewrite (traverse_raises (lt_scalar up) TypeError); [done| |].
      * intros [| | | |]; simpl; eauto.
      * apply forallb_false_elem in Hnum as (r & Hr & Hc). exists (cell j r).
        split; [apply list_elem_of_fmap; by exists r|]. by destruct (cell j r).
  - unfold get_outlier_removed_col, getcol. by rewrite Hpos.
Qed.

(** X6.  How [get_outlier_removed_col] fails: with [KeyError] when the
    table lacks the column, with [TypeError] when some cell of the column
    is neither a number nor missing (a string, a date); it returns a table
    in every other case and in no other. *)
Theorem outlier_filter_failures df column up low :
  (col_pos column (columns df) = None →
   get_outlier_removed_col df column up low = Raise KeyError) ∧
  (∀ j r, col_pos column (columns df) = Some j →
     r ∈ records df → ¬ comparable (cell j r) →
     get_outlier_removed_col df column up low = Raise TypeError) ∧
  (∀ out, get_outlier_removed_col df column up low = Ok out →
     ∃ j, col_pos column (columns df) = Some j
          ∧ Forall (λ r, comparable (cell j r)) (records df)).
Proof.
  rewrite outlier_result. split_and!.
  - by intros ->.
  - intros j r -> Hr Hc.
    destruct (forallb _ (records df)) eqn:Hnum; [|done].
    apply forallb_Forall_bool in Hnum.
    destruct Hc. apply comparableb_spec.
    by apply (proj1 (Forall_forall _ _) Hnum).
  - intros out. destruct (col_pos column (columns df)) as [j|]; [|done].
    destruct (forallb _ (records df)) eqn:Hnum; [|done]. intros _.
    exists j. split; [done|]. apply forallb_Forall_bool in Hnum.
    eapply Forall_impl; [exact Hnum|]. intros r. apply comparableb_spec.
Qed.

Lemma strictly_between_empty low up j r :
  up ≤ low → strictly_between low up j r = false.
Proof.
  intros H. unfold strictly_between. destruct (cell j r); try done.
  apply andb_false_iff. destruct (Z.ltb_spec low z); [right|left; done].
  apply Z.ltb_ge. lia.
Qed.

Lemma filter_none {A} (p : A → bool) l :
  (∀ x, p x = false) → List.filter p l = [].
Proof. intros H. induction l as [|x l IH]; simpl; [done|]. by rewrite H. Qed.

(** X7.  On a table with distinct column labels, when the upper threshold
    is not above the lower one (as when the two are passed in the order
    low, high) [get_outlier_removed_col] returns a table without records. *)
Theorem outlier_filter_empty_range df column up low out :
  NoDup (columns df) →
  up ≤ low →
  get_outlier_removed_col df column up low = Ok out →
  columns out = columns df ∧ records out = [].
Proof.
  intros _ Hrange. rewrite outlier_result.
  destruct (col_pos column (columns df)) as [j|]; [|done].
  destruct (forallb _ (records df)); [|done]. intros [= <-].
  split; [done|]. cbn [records]. apply filter_none. intros r.
  by apply strictly_between_empty.
Qed.

Lemma outlier_filter_empty_range_witness :
  ∃ out, get_outlier_removed_col outlier_table (VStr "value") 0 10 = Ok out
         ∧ records out = [].
Proof.
  eexists. split; [reflexivity|].
  refine (proj2 (outlier_filter_empty_range outlier_table (VStr "value") 0 10 _ _ _ eq_refl)).
  - apply NoDup_singleton.
  - lia.
Defined.

Lemma filter_filter_bool {A} (p q : A → bool) l :
  List.filter p (List.filter q l) = List.filter (λ x, q x && p x) l.
Proof.
  induction l as [|x l IH]; simpl; [done|].
  destruct (q x); simpl; [destruct (p x)|]; by rewrite IH.
Qed.

Lemma forallb_filter {A} (p q : A → bool) l :
  forallb p l = true → forallb p (List.filter q l) = true.
Proof.
  induction l as [|x l IH]; simpl; [done|]. intros [Hx Hl]%andb_prop.
  destruct (q x); simpl; [rewrite Hx|]; by apply IH.
Qed.

Lemma strictly_between_both low1 up1 low2 up2 j r :
  strictly_between low1 up1 j r && strictly_between low2 up2 j r
  = strictly_between (Z.max low1 low2) (Z.min up1 up2) j r.
Proof.
  unfold strictly_between. destruct (cell j r) as [x| | | |]; try done.
  apply eq_true_iff_eq. rewrite !andb_true_iff, !Z.ltb_lt. lia.
Qed.

(** X8.  Filtering the result of [get_outlier_removed_col] again on the
    same column is one filter with the tighter of the thresholds: the
    smaller upper and the larger lower one. *)
Theorem outlier_filter_twice df column up1 low1 up2 low2 out :
  get_outlier_removed_col df column up1 low1 = Ok out →
  get_outlier_removed_col out column up2 low2
  = get_outlier_removed_col df column (Z.min up1 up2) (Z.max low1 low2).
Proof.
  rewrite !outlier_result.
  destruct (col_pos column (columns df)) as [j|] eqn:Hpos; [|done].
  destruct (forallb _ (records df)) eqn:Hnum; [|done]. intros [= <-].
  cbn [columns records]. rewrite Hpos.
  rewrite (forallb_filter _ _ _ Hnum), filter_filter_bool.
  do 2 f_equal. apply List.filter_ext. intros r. apply strictly_between_both.
Qed.

Lemma outlier_filter_twice_witness :
  ∃ out, get_outlier_removed_col outlier_table (VStr "value") 11 0 = Ok out ∧
    get_outlier_removed_col out (VStr "value") 10 (-5)
    = get_outlier_removed_col outlier_table (VStr "value") 10 0.
Proof.
  eexists. split; [reflexivity|].
  apply (outlier_filter_twice outlier_table (VStr "value") 11 0 10 (-5)).
  reflexivity.
Defined.

(** ** Records with a missing value *)

Lemma get_nan_records_filter df :
  get_nan_records df
  = mkDF (columns df) (List.filter (λ r, existsb isnull r.2) (records df)).
Proof.
  unfold get_nan_records.
  pose proof (select_mask_filter (λ r, existsb isnull r.2) df) as H.
  unfold select_mask in *. cbn [records] in H. by rewrite H.
Qed.

(** X9.  [get_nan_records] keeps exactly the records with a missing cell:
    every record it returns has one, it returns nothing exactly when no
    cell of the table is missing, applying it a second time changes
    nothing, and together with the complete records it accounts for every
    record of the table. *)
Theorem nan_records_properties df :
  (∀ r, r ∈ records (get_nan_records df) ↔ r ∈ records df ∧ VNaN ∈ r.2) ∧
  (records (get_nan_records df) = [] ↔
   ∀ r, r ∈ records df → VNaN ∉ r.2) ∧
  get_nan_records (get_nan_records df) = get_nan_records df ∧
  (nrows (get_nan_records df)
   + length (List.filter (λ r, negb (existsb isnull r.2)) (records df))
   = nrows df)%nat.
Proof.
  rewrite !get_nan_records_filter. cbn [records columns].
  assert (Hnull : ∀ r : value * row, existsb isnull r.2 = true ↔ VNaN ∈ r.2).
  { intros r. rewrite existsb_exists. split.
    - intros (v & Hv & Hn). destruct v; try done. by apply list_elem_of_In.
    - intros H. exists VNaN. split; [by apply list_elem_of_In | done]. }
  split_and!.
  - intros r. by rewrite elem_of_filter_bool, Hnull.
  - split.
    + intros Hnil r Hr Hnan.
      assert (r ∈ List.filter (λ r, existsb isnull r.2) (records df)) as Hin
        by (apply elem_of_filter_bool; by rewrite Hnull).
      rewrite Hnil in Hin. by apply elem_of_nil in Hin.
    + intros Hall. induction (records df) as [|r recs IH]; [done|]. simpl.
      destruct (existsb isnull r.2) eqn:E.
      * apply Hnull in E. destruct (Hall r); [by left | done].
      * apply IH. intros r' Hr'. apply Hall. by right.
  - f_equal. rewrite filter_filter_bool. apply List.filter_ext.
    intros r. by destruct (existsb isnull r.2).
  - unfold nrows. cbn [records]. apply List.filter_length.
Qed.

(** ** Categories below a threshold *)

(** [get_cols_names_below_threshold] in closed form, on a numeric [Count]
    column. *)
Lemma names_below_result df threshold jn jc :
  col_pos (VStr "Count") (columns df) = Some jn →
  col_pos (VStr "Category") (columns df) = Some jc →
  Forall (λ r, comparable (cell jn r)) (records df) →
  get_cols_names_below_threshold df threshold
  = Ok (unique
          (map (cell jc)
             (List.filter
                (λ r, match cell jn r with VInt x => x <? threshold | _ => false end)
                (records df)))).
Proof.
  intros Hjn Hjc Hnum. unfold get_cols_names_below_threshold.
  rewrite (getcol_pos df _ jn Hjn). cbn [mbind result_bind].
  rewrite (traverse_Ok (lt_scalar threshold)
             (λ v, match v with VInt x => x <? threshold | _ => false end)).
  2:{ apply Forall_map. eapply Forall_impl; [exact Hnum|].
      intros r Hr; simpl in *. by destruct (cell jn r). }
  cbn [mbind result_bind]. rewrite map_map.
  rewrite (getcol_pos (select_mask _ df) _ jc Hjc). cbn [mbind result_bind].
  by rewrite (select_mask_filter
                (λ r, match cell jn r with VInt x => x <? threshold | _ => false end)
                df).
Qed.

Lemma elem_of_names_below df threshold jn jc c :
  c ∈ unique
        (map (cell jc)
           (List.filter
              (λ r, match cell jn r with VInt x => x <? threshold | _ => false end)
              (records df))) ↔
  ∃ r x, r ∈ records df ∧ cell jc r = c ∧ cell jn r = VInt x ∧ x < threshold.
Proof.
  rewrite elem_of_unique, list_elem_of_fmap. split.
  - intros (r & -> & Hr). apply elem_of_filter_bool in Hr as [Hr Hlt].
    destruct (cell jn r) as [x| | | |] eqn:Hx; try done.
    exists r, x. split_and!; [done..|]. by apply Z.ltb_lt.
  - intros (r & x & Hr & <- & Hx & Hlt). exists r. split; [done|].
    apply elem_of_filter_bool. split; [done|]. rewrite Hx. by apply Z.ltb_lt.
Qed.



(** ** The count table *)

(** X11.  On a table with distinct column labels whose category and time
    columns (distinct, neither named [Count]) each hold keys of one kind,
    [get_count_table] returns a table with the columns category, time and
    [Count], numbered 0, 1, ..., in which every record holds a pair of
    category and time that occurs in the input, neither missing, with the
    number of input records carrying that pair; every such pair of the
    input has its record, and no pair has two. *)
Theorem count_table_groups df category time jc jt :
  wf df → NoDup (columns df) →
  category ≠ time → category ≠ VStr "Count" → time ≠ VStr "Count" →
  col_pos category (columns df) = Some jc →
  col_pos time (columns df) = Some jt →
  one_kind (map (cell jc) (records df)) →
  one_kind (map (cell jt) (records df)) →
  ∃ df' out, get_count_table df category time = Ok (df', out) ∧
    columns out = [category; time; VStr "Count"] ∧
    (∀ i l row, records out !! i = Some (l, row) →
       l = VInt (Z.of_nat i) ∧
       ∃ c t, row = [c; t; VInt (Z.of_nat (group_size df jc jt [c; t]))]
              ∧ c ≠ VNaN ∧ t ≠ VNaN
              ∧ (0 < group_size df jc jt [c; t])%nat) ∧
    (∀ r, r ∈ records df → cell jc r ≠ VNaN → cell jt r ≠ VNaN →
       ∃ l, (l, [cell jc r; cell jt r;
                 VInt (Z.of_nat (group_size df jc jt [cell jc r; cell jt r]))])
            ∈ records out) ∧
    NoDup (map (λ r : value * row, take 2 r.2) (records out)).
Proof.
  intros Hwf _ Hct Hc Ht Hjc Hjt _ _.
  destruct (count_table_result df category time jc jt Hwf Hct Hc Ht Hjc Hjt)
    as (df' & _ & Hout).
  eexists df', _. split; [exact Hout|]. cbn [columns records]. split_and!.
  - done.
  - intros i l row Hi. rewrite list_lookup_imap in Hi.
    destruct (count_groups df jc jt !! i) as [k|] eqn:Hk; [|done].
    injection Hi as <- <-. split; [done|].
    apply list_elem_of_lookup_2, elem_of_count_groups in Hk
      as (r & Hr & -> & Hnc & Hnt).
    exists (cell jc r), (cell jt r). split_and!; [done..|].
    by apply (group_size_pos df jc jt r).
  - intros r Hr Hnc Hnt.
    assert (group_key jc jt r ∈ count_groups df jc jt) as Hk
      by (apply elem_of_count_groups; by exists r).
    apply list_elem_of_lookup_1 in Hk as [i Hi].
    exists (VInt (Z.of_nat i)).
    apply (elem_of_lookup_imap_2
             (λ (i : nat) k, (VInt (Z.of_nat i),
                      k ++ [VInt (Z.of_nat (group_size df jc jt k))]))
             _ _ i Hi).
  - rewrite count_groups_keys. apply NoDup_count_groups.
Qed.

Lemma count_table_groups_witness :
  ∃ df' out, get_count_table stale_counts_table (VStr "cat") (VStr "day")
             = Ok (df', out) ∧
    records out = [ (VInt 0, [VStr "A"; VInt 1; VInt 1]);
                    (VInt 1, [VStr "B"; VInt 2; VInt 2]) ].
Proof.
  destruct (count_table_groups stale_counts_table (VStr "cat") (VStr "day") 0 2)
    as (df' & out & Hout & _); try done.
  - repeat constructor.
  - NoDup_explicit.
  - by exists KStr.
  - by exists KInt.
  - exists df', out. split; [exact Hout|].
    vm_compute in Hout. by injection Hout as _ <-.
Defined.

Lemma sum_list_with_imap {A B} (h : B → nat) (g : A → nat) (f : nat → A → B) l :
  (∀ i x, x ∈ l → h (f i x) = g x) →
  sum_list_with h (imap f l) = sum_list_with g l.
Proof.
  revert f. induction l as [|x l IH]; intros f H; [done|].
  cbn [imap sum_list_with]. rewrite (H 0%nat x) by apply list_elem_of_here.
  f_equal. apply IH. intros i y Hy. apply H. by apply list_elem_of_further.
Qed.

Lemma sum_indicator {A} `{EqDecision A} (x : A) (G : list A) :
  NoDup G →
  sum_list_with (λ k, if bool_decide (x = k) then 1%nat else 0%nat) G
  = if bool_decide (x ∈ G) then 1%nat else 0%nat.
Proof.
  induction 1 as [|k G Hk _ IH]; [done|]. cbn [sum_list_with]. rewrite IH.
  destruct (decide (x = k)) as [->|Hne].
  - rewrite bool_decide_eq_true_2 by done.
    rewrite (bool_decide_eq_false_2 (k ∈ G)) by done.
    by rewrite bool_decide_eq_true_2 by apply list_elem_of_here.
  - rewrite bool_decide_eq_false_2 by done. simpl.
    apply (f_equal (λ b : bool, if b then 1%nat else 0%nat)).
    apply bool_decide_ext. rewrite elem_of_cons. tauto.
Qed.

Lemma sum_list_with_add {A} (a b : A → nat) l :
  sum_list_with (λ k, a k + b k)%nat l
  = (sum_list_with a l + sum_list_with b l)%nat.
Proof. induction l as [|x l IH]; simpl; [done|]. rewrite IH. lia. Qed.

Lemma sum_list_with_pointwise {A} (a b : A → nat) l :
  (∀ k, a k = b k) → sum_list_with a l = sum_list_with b l.
Proof. intros H. induction l as [|x l IH]; simpl; [done|]. by rewrite H, IH. Qed.

(** Over distinct keys the group sizes add up to the number of elements
    whose key is among them. *)
Lemma sum_group_sizes {A K} `{EqDecision K} (key : A → K) (G : list K) (l : list A) :
  NoDup G →
  sum_list_with (λ k, length (List.filter (λ r, bool_decide (key r = k)) l)) G
  = length (List.filter (λ r, bool_decide (key r ∈ G)) l).
Proof.
  intros Hnd. induction l as [|r l IH].
  - simpl. induction G as [|k G IHG]; [done|]. simpl. apply IHG.
    by apply NoDup_cons in Hnd as [_ ?].
  - cbn [List.filter].
    rewrite (sum_list_with_pointwise _
               (λ k, (if bool_decide (key r = k) then 1 else 0)
                     + length (List.filter (λ r, bool_decide (key r = k)) l))%nat).
    2:{ intros k. by destruct (bool_decide (key r = k)). }
    rewrite sum_list_with_add, IH, sum_indicator by done.
    by destruct (bool_decide (key r ∈ G)).
Qed.

(** X12.  On a table with distinct column labels whose category and time
    columns each hold keys of one kind, the counts of the table
    [get_count_table] returns add up to the number of input records whose
    category and time are both present: a record with a missing key is
    counted nowhere, every other record exactly once. *)
Theorem count_table_total df category time jc jt :
  wf df → NoDup (columns df) →
  category ≠ time → category ≠ VStr "Count" → time ≠ VStr "Count" →
  col_pos category (columns df) = Some jc →
  col_pos time (columns df) = Some jt →
  one_kind (map (cell jc) (records df)) →
  one_kind (map (cell jt) (records df)) →
  ∃ df' out, get_count_table df category time = Ok (df', out) ∧
    sum_list_with count_of (records out)
    = length (List.filter
                (λ r, negb (isnull (cell jc r)) && negb (isnull (cell jt r)))
                (records df)).
Proof.
  intros Hwf _ Hct Hc Ht Hjc Hjt _ _.
  destruct (count_table_result df category time jc jt Hwf Hct Hc Ht Hjc Hjt)
    as (df' & _ & Hout).
  eexists df', _. split; [exact Hout|]. cbn [records].
  rewrite (sum_list_with_imap count_of (group_size df jc jt)).
  2:{ intros i k (r & _ & -> & _)%elem_of_count_groups.
      unfold count_of, cell, group_key. simpl. lia. }
  unfold group_size.
  rewrite (sum_group_sizes (group_key jc jt)) by apply NoDup_count_groups.
  f_equal. apply List.filter_ext_in. intros r Hr%list_elem_of_In.
  apply eq_true_iff_eq.
  rewrite bool_decide_eq_true, elem_of_count_groups, andb_true_iff,
    !negb_true_iff.
  split.
  - intros (r' & _ & [= Hc' Ht'] & Hnc & Hnt). rewrite Hc', Ht'.
    split; [by destruct (cell jc r') | by destruct (cell jt r')].
  - intros [Hnc Hnt]. exists r. split_and!; [done..| |]; by intros E; rewrite E in *.
Qed.

Lemma count_table_total_witness :
  ∃ df' out, get_count_table stale_counts_table (VStr "cat") (VStr "day")
             = Ok (df', out) ∧
    sum_list_with count_of (records out) = 3%nat.
Proof.
  destruct (count_table_total stale_counts_table (VStr "cat") (VStr "day") 0 2)
    as (df' & out & Hout & Hsum); try done.
  - repeat constructor.
  - NoDup_explicit.
  - by exists KStr.
  - by exists KInt.
  - exists df', out. split; [exact Hout | exact Hsum].
Defined.

(** *** Order of the groups *)

Lemma lex_antisym c1 c2 : lex (CompOpp c1) (CompOpp c2) = CompOpp (lex c1 c2).
Proof. by destruct c1. Qed.

Lemma value_compare_antisym a b :
  value_compare b a = CompOpp (value_compare a b).
Proof.
  destruct a as [x|x|x|y m d|], b as [x'|x'|x'|y' m' d'|]; simpl; try done.
  - apply Z.compare_antisym.
  - apply String.compare_antisym.
  - rewrite <- !lex_antisym. by rewrite <- !(Z.compare_antisym).
  - rewrite <- !lex_antisym. by rewrite <- !(Z.compare_antisym).
Qed.

Lemma key_compare_antisym k1 k2 :
  key_compare k2 k1 = CompOpp (key_compare k1 k2).
Proof.
  revert k2. induction k1 as [|a k1 IH]; intros [|b k2]; simpl; try done.
  by rewrite <- lex_antisym, <- value_compare_antisym, <- IH.
Qed.

Lemma key_leb_total k1 k2 : key_leb k1 k2 = false → key_leb k2 k1 = true.
Proof.
  unfold key_leb. rewrite (key_compare_antisym k1 k2).
  by destruct (key_compare k1 k2).
Qed.

Lemma insert_sorted_ascending k l :
  ascending l → ascending (insert_sorted key_leb k l).
Proof.
  induction l as [|k1 l IH]; [done|]. intros [Hhd Htl]. cbn [insert_sorted].
  destruct (key_leb k k1) eqn:Hk; [done|]. specialize (IH Htl).
  split; [|done]. destruct l as [|k2 l]; cbn [insert_sorted] in *.
  - by apply key_leb_total.
  - destruct (key_leb k k2); [by apply key_leb_total | done].
Qed.

Lemma sort_by_ascending l : ascending (sort_by key_leb l).
Proof.
  unfold sort_by. induction l as [|k l IH]; [done|]. simpl.
  by apply insert_sorted_ascending.
Qed.

Lemma ascending_lookup l i k1 k2 :
  ascending l → l !! i = Some k1 → l !! S i = Some k2 → key_leb k1 k2 = true.
Proof.
  revert i. induction l as [|k l IH]; intros i Hl H1 H2; [done|].
  destruct Hl as [Hhd Htl]. destruct i as [|i].
  - injection H1 as ->. destruct l as [|k' l]; [done|]. by injection H2 as ->.
  - by apply (IH i).
Qed.

Lemma ascii_compare_Lt a b :
  Ascii.compare a b = Lt → (nat_of_ascii a < nat_of_ascii b)%nat.
Proof.
  unfold Ascii.compare, nat_of_ascii. rewrite N.compare_lt_iff. lia.
Qed.

Lemma string_compare_Lt s t : String.compare s t = Lt → string_before s t.
Proof.
  revert t. induction s as [|a s IH]; intros [|b t]; cbn [String.compare];
    try done.
  - intros _. constructor.
  - destruct (Ascii.compare a b) eqn:E; try done.
    + apply Ascii.compare_eq_iff in E as ->. intros H. by apply before_tail, IH.
    + intros _. by apply before_head, ascii_compare_Lt.
Qed.

Lemma lex_Lt c1 c2 : lex c1 c2 = Lt → c1 = Lt ∨ (c1 = Eq ∧ c2 = Lt).
Proof. destruct c1; simpl; auto; done. Qed.

Lemma lex_Eq c1 c2 : lex c1 c2 = Eq → c1 = Eq ∧ c2 = Eq.
Proof. by destruct c1. Qed.

Lemma value_compare_Eq a b : value_compare a b = Eq → a = b.
Proof.
  destruct a as [x|x|x|y m d|], b as [x'|x'|x'|y' m' d'|]; simpl; try done.
  - by intros ->%Z.compare_eq.
  - by intros ->%String.compare_eq_iff.
  - intros H. repeat (apply lex_Eq in H as [?%Z.compare_eq H]).
    apply Z.compare_eq in H. destruct x, x'. simpl in *. congruence.
  - intros H. repeat (apply lex_Eq in H as [?%Z.compare_eq H]).
    apply Z.compare_eq in H. congruence.
Qed.

(** Within one kind the comparison of the model is the order written
    out in [key_before]. *)
Lemma value_compare_Lt k a b :
  of_kind k a = true → of_kind k b = true → a ≠ VNaN → b ≠ VNaN →
  value_compare a b = Lt → key_before a b.
Proof.
  intros Ha Hb Hna Hnb.
  destruct a as [x|x|x|y m d|], b as [x'|x'|x'|y' m' d'|]; try done;
    try (by destruct k); cbn [value_compare key_before fields_before].
  - apply string_compare_Lt.
  - intros H.
    repeat (apply lex_Lt in H as [?%Z.compare_lt_iff|[?%Z.compare_eq H]];
            [tauto|right; split; [done|]]).
    apply Z.compare_lt_iff in H. tauto.
  - intros H.
    repeat (apply lex_Lt in H as [?%Z.compare_lt_iff|[?%Z.compare_eq H]];
            [tauto|right; split; [done|]]).
    apply Z.compare_lt_iff in H. tauto.
Qed.

Lemma one_kind_elem s a b :
  one_kind s → a ∈ s → b ∈ s → ∃ k, of_kind k a = true ∧ of_kind k b = true.
Proof.
  intros [k Hk] Ha Hb. exists k. rewrite forallb_forall in Hk.
  split; apply Hk; by apply list_elem_of_In.
Qed.

(** X13.  On a table with distinct column labels whose category and time
    columns each hold keys of one kind, the records of the table
    [get_count_table] returns are in strictly increasing order of their
    keys: from one record to the next the category grows, or it stays and
    the time grows (numbers by value, strings by code point, dates and
    timestamps by calendar). *)
Theorem count_table_sorted df category time jc jt :
  wf df → NoDup (columns df) →
  category ≠ time → category ≠ VStr "Count" → time ≠ VStr "Count" →
  col_pos category (columns df) = Some jc →
  col_pos time (columns df) = Some jt →
  one_kind (map (cell jc) (records df)) →
  one_kind (map (cell jt) (records df)) →
  ∃ df' out, get_count_table df category time = Ok (df', out) ∧
    ∀ i l1 c1 t1 n1 l2 c2 t2 n2,
      records out !! i = Some (l1, [c1; t1; n1]) →
      records out !! S i = Some (l2, [c2; t2; n2]) →
      key_before c1 c2 ∨ (c1 = c2 ∧ key_before t1 t2).
Proof.
  intros Hwf _ Hct Hc Ht Hjc Hjt Hkc Hkt.
  destruct (count_table_result df category time jc jt Hwf Hct Hc Ht Hjc Hjt)
    as (df' & _ & Hout).
  eexists df', _. split; [exact Hout|]. cbn [records].
  intros i l1 c1 t1 n1 l2 c2 t2 n2 H1 H2.
  rewrite list_lookup_imap in H1, H2.
  destruct (count_groups df jc jt !! i) as [k1|] eqn:Hk1; [|done].
  destruct (count_groups df jc jt !! S i) as [k2|] eqn:Hk2; [|done].
  pose proof (ascending_lookup _ _ _ _ (sort_by_ascending _) Hk1 Hk2) as Hle.
  assert (k1 ≠ k2) as Hne.
  { intros ->. pose proof (NoDup_lookup _ _ _ _ (NoDup_count_groups df jc jt) Hk1 Hk2).
    lia. }
  apply list_elem_of_lookup_2, elem_of_count_groups in Hk1
    as (r1 & Hr1 & -> & Hnc1 & Hnt1).
  apply list_elem_of_lookup_2, elem_of_count_groups in Hk2
    as (r2 & Hr2 & -> & Hnc2 & Hnt2).
  cbn in H1, H2. injection H1 as _ <- <- _. injection H2 as _ <- <- _.
  destruct (one_kind_elem _ (cell jc r1) (cell jc r2) Hkc) as (kc & Hc1 & Hc2);
    [apply list_elem_of_fmap; by eexists..|].
  destruct (one_kind_elem _ (cell jt r1) (cell jt r2) Hkt) as (kt & Ht1 & Ht2);
    [apply list_elem_of_fmap; by eexists..|].
  unfold key_leb, group_key in Hle. cbn [key_compare] in Hle.
  destruct (value_compare (cell jc r1) (cell jc r2)) eqn:Ec; cbn [lex] in Hle.
  - apply value_compare_Eq in Ec. right. split; [done|].
    destruct (value_compare (cell jt r1) (cell jt r2)) eqn:Et; cbn [lex] in Hle.
    + apply value_compare_Eq in Et. exfalso. apply Hne. unfold group_key.
      by rewrite Ec, Et.
    + by eapply value_compare_Lt.
    + done.
  - left. by eapply value_compare_Lt.
  - done.
Qed.

Lemma count_table_sorted_witness :
  ∃ df' out, get_count_table stale_counts_table (VStr "cat") (VStr "day")
             = Ok (df', out) ∧
    records out = [ (VInt 0, [VStr "A"; VInt 1; VInt 1]);
                    (VInt 1, [VStr "B"; VInt 2; VInt 2]) ] ∧
    key_before (VStr "A") (VStr "B").
Proof.
  destruct (count_table_sorted stale_counts_table (VStr "cat") (VStr "day") 0 2)
    as (df' & out & Hout & Hsorted); try done.
  - repeat constructor.
  - NoDup_explicit.
  - by exists KStr.
  - by exists KInt.
  - exists df', out. split; [exact Hout|].
    pose proof Hout as Hrun. vm_compute in Hrun. injection Hrun as _ <-.
    split; [reflexivity|].
    destruct (Hsorted 0%nat _ _ _ _ _ _ _ _ eq_refl eq_refl) as [H|[H _]];
      [exact H | discriminate H].
Defined.

(** *** The table passed in *)

Lemma setcol_same df c vals :
  wf df → getcol df c = Ok vals → setcol df c vals = Ok df.
Proof.
  intros Hwf Hget. pose proof (getcol_length _ _ _ Hget) as Hlen.
  apply getcol_Ok_inv in Hget as (j & Hj & ->).
  unfold setcol. rewrite (proj2 (Nat.eqb_eq _ _) Hlen), Hj. cbn [negb].
  destruct df as [cols recs]. unfold wf in Hwf. cbn [columns records] in *.
  do 2 f_equal. apply col_pos_Some, lookup_lt_Some in Hj.
  clear Hlen. induction Hwf as [|[l r] rest Hr _ IH]; [done|].
  cbn [map zip_with fst snd]. f_equal; [|exact IH]. f_equal.
  apply list_insert_id. unfold cell. cbn [snd] in *. rewrite nth_lookup.
  destruct (r !! j) eqn:E; [done|]. apply lookup_ge_None in E. lia.
Qed.

(** X14.  [get_count_table] changes the table it is given: after the call
    its [Count] column holds 1 in every record, whatever it held before;
    calling the function again on that table returns the same result and
    leaves the table as it is. *)
Theorem count_table_overwrites_count df category time df' out :
  wf df →
  get_count_table df category time = Ok (df', out) →
  getcol df' (VStr "Count") = Ok (replicate (nrows df) (VInt 1)) ∧
  get_count_table df' category time = Ok (df', out).
Proof.
  intros Hwf H. pose proof H as H'. unfold get_count_table in H'.
  apply bind_Ok in H' as (df1 & Hset & H').
  assert (df1 = df') as ->.
  { apply bind_Ok in H' as (sub & _ & H'). apply bind_Ok in H' as (g & _ & H').
    by injection H'. }
  destruct (setcol_spec df (VStr "Count") (replicate (nrows df) (VInt 1)) Hwf)
    as (df1 & Hset1 & Hwf1 & Hn1 & _ & Hcount & _); [apply length_replicate|].
  rewrite Hset in Hset1. injection Hset1 as <-.
  split; [done|]. unfold get_count_table.
  rewrite Hn1, (setcol_same df' _ _ Hwf1 Hcount). exact H'.
Qed.

Lemma count_table_overwrites_count_witness :
  ∃ df' out,
    get_count_table stale_counts_table (VStr "cat") (VStr "day") = Ok (df', out) ∧
    getcol stale_counts_table (VStr "Count") = Ok [VInt 7; VInt 9; VInt 0; VInt 7] ∧
    getcol df' (VStr "Count") = Ok [VInt 1; VInt 1; VInt 1; VInt 1].
Proof.
  eexists _, _. split; [reflexivity|]. split; [reflexivity|].
  refine (proj1 (count_table_overwrites_count stale_counts_table
                   (VStr "cat") (VStr "day") _ _ _ eq_refl)).
  repeat constructor.
Defined.

(** ** Per-street counts: empty results and failures *)






(** ** Time decomposition *)

Lemma traverse_Ok_length {A B} (f : A → result B) l l' :
  traverse f l = Ok l' → length l' = length l.
Proof.
  revert l'. induction l as [|x l IH]; intros l' H; simpl in H.
  - by inversion H.
  - apply bind_Ok in H as (y & _ & H). apply bind_Ok in H as (ys & Hys & H).
    inversion H; subst. simpl. f_equal. by apply IH.
Qed.

Lemma dt_of_datetime ts : dt (map of_datetime ts) = Ok ts.
Proof.
  unfold dt. rewrite <- (map_id ts) at 2. apply traverse_map_Ok.
  by intros [t|].
Qed.

Lemma dt_col_spec df c target f ts :
  wf df → getcol df c = Ok (map of_datetime ts) →
  ∃ out, dt_col df c target f = Ok out ∧ wf out ∧
    getcol out target = Ok (map (dt_field f) ts) ∧
    ∀ c', c' ≠ target → getcol out c' = getcol df c'.
Proof.
  intros Hwf Hcol. unfold dt_col. rewrite Hcol. cbn [mbind result_bind].
  rewrite dt_of_datetime. cbn [mbind result_bind].
  destruct (setcol_spec df target (map (dt_field f) ts) Hwf)
    as (out & Hout & Hwf' & _ & _ & Hget & Hother).
  { apply getcol_length in Hcol. by rewrite !length_map in *. }
  by exists out.
Qed.

(** The table [make_time_cols] returns once every cell is parsed. *)
Lemma time_cols_result to_datetime df timestamp_column raw ts :
  wf df → timestamp_column ∉ derived_time_columns →
  getcol df timestamp_column = Ok raw →
  traverse to_datetime raw = Ok ts →
  ∃ out, make_time_cols to_datetime df timestamp_column = Ok out ∧ wf out ∧
    getcol out timestamp_column = Ok (map of_datetime ts) ∧
    getcol out (VStr "Year") = Ok (map (dt_field (λ t, VInt (ts_year t))) ts) ∧
    getcol out (VStr "Month") = Ok (map (dt_field (λ t, VInt (ts_month t))) ts) ∧
    getcol out (VStr "Day")
    = Ok (map (dt_field (λ t, VDate (ts_year t) (ts_month t) (ts_day t))) ts) ∧
    getcol out (VStr "DayOfYear")
    = Ok (map (dt_field (λ t, VInt (days_before_month (ts_year t) (ts_month t)
                                     + ts_day t))) ts) ∧
    getcol out (VStr "Hour") = Ok (map (dt_field (λ t, VInt (ts_hour t))) ts) ∧
    getcol out (VStr "Minute") = Ok (map (dt_field (λ t, VInt (ts_minute t))) ts).
Proof.
  intros Hwf Hname Hraw Hts. unfold derived_time_columns in Hname.
  repeat (apply not_elem_of_cons in Hname as [? Hname]).
  unfold make_time_cols. rewrite Hraw. cbn [mbind result_bind].
  rewrite Hts. cbn [mbind result_bind].
  destruct (setcol_spec df timestamp_column (map of_datetime ts) Hwf)
    as (df1 & -> & Hwf1 & _ & _ & Hc1 & _).
  { apply getcol_length in Hraw. apply traverse_Ok_length in Hts.
    rewrite length_map. congruence. }
  cbn [mbind result_bind].
  destruct (dt_col_spec df1 timestamp_column (VStr "Year")
              (λ t, VInt (ts_year t)) ts Hwf1 Hc1)
    as (df2 & -> & Hwf2 & Hy2 & Ho2).
  cbn [mbind result_bind]. pose proof Hc1 as Hc2. rewrite <- Ho2 in Hc2 by done.
  destruct (dt_col_spec df2 timestamp_column (VStr "Month")
              (λ t, VInt (ts_month t)) ts Hwf2 Hc2)
    as (df3 & -> & Hwf3 & Hm3 & Ho3).
  cbn [mbind result_bind]. pose proof Hc2 as Hc3. rewrite <- Ho3 in Hc3 by done.
  destruct (dt_col_spec df3 timestamp_column (VStr "Day")
              (λ t, VDate (ts_year t) (ts_month t) (ts_day t)) ts Hwf3 Hc3)
    as (df4 & -> & Hwf4 & Hd4 & Ho4).
  cbn [mbind result_bind]. pose proof Hc3 as Hc4. rewrite <- Ho4 in Hc4 by done.
  destruct (dt_col_spec df4 timestamp_column (VStr "DayOfYear")
              (λ t, VInt (days_before_month (ts_year t) (ts_month t) + ts_day t))
              ts Hwf4 Hc4)
    as (df5 & -> & Hwf5 & Hdy5 & Ho5).
  cbn [mbind result_bind]. pose proof Hc4 as Hc5. rewrite <- Ho5 in Hc5 by done.
  destruct (dt_col_spec df5 timestamp_column (VStr "Hour")
              (λ t, VInt (ts_hour t)) ts Hwf5 Hc5)
    as (df6 & -> & Hwf6 & Hh6 & Ho6).
  cbn [mbind result_bind]. pose proof Hc5 as Hc6. rewrite <- Ho6 in Hc6 by done.
  destruct (dt_col_spec df6 timestamp_column (VStr "Minute")
              (λ t, VInt (ts_minute t)) ts Hwf6 Hc6)
    as (df7 & -> & Hwf7 & Hmi7 & Ho7).
  exists df7. split; [done|]. split; [done|]. split_and!.
  - by rewrite Ho7.
  - by rewrite Ho7, Ho6, Ho5, Ho4, Ho3.
  - by rewrite Ho7, Ho6, Ho5, Ho4.
  - by rewrite Ho7, Ho6, Ho5.
  - by rewrite Ho7, Ho6.
  - by rewrite Ho7.
  - done.
Qed.



Lemma dt_col_same df c target f ts :
  wf df → getcol df c = Ok (map of_datetime ts) →
  getcol df target = Ok (map (dt_field f) ts) →
  dt_col df c target f = Ok df.
Proof.
  intros Hwf Hc Ht. unfold dt_col. rewrite Hc. cbn [mbind result_bind].
  rewrite dt_of_datetime. cbn [mbind result_bind]. by apply setcol_same.
Qed.

(** X17.  [make_time_cols] can be run again on its own result: given that
    [pd.to_datetime] leaves timestamps (and missing values) as they are,
    the second run returns the table unchanged. *)
Theorem time_cols_idempotent to_datetime df timestamp_column out :
  wf df → timestamp_column ∉ derived_time_columns →
  (∀ t, to_datetime (VTime t) = Ok (Some t)) →
  to_datetime VNaN = Ok None →
  make_time_cols to_datetime df timestamp_column = Ok out →
  make_time_cols to_datetime out timestamp_column = Ok out.
Proof.
  intros Hwf Hname Htime Hnat Hrun. pose proof Hrun as Hrun'.
  unfold make_time_cols in Hrun'.
  apply bind_Ok in Hrun' as (raw & Hraw & Hrun').
  apply bind_Ok in Hrun' as (ts & Hts & _).
  destruct (time_cols_result to_datetime df timestamp_column raw ts
              Hwf Hname Hraw Hts)
    as (out' & Hout' & Hwf' & Hc & Hy & Hm & Hd & Hdy & Hh & Hmi).
  rewrite Hrun in Hout'. injection Hout' as <-.
  unfold make_time_cols. rewrite Hc. cbn [mbind result_bind].
  rewrite (traverse_map_Ok to_datetime of_datetime (λ o, o)), map_id.
  2:{ intros [t|]; [apply Htime | apply Hnat]. }
  cbn [mbind result_bind]. rewrite (setcol_same out _ _ Hwf' Hc).
  cbn [mbind result_bind].
  rewrite (dt_col_same out _ _ _ ts Hwf' Hc Hy). cbn [mbind result_bind].
  rewrite (dt_col_same out _ _ _ ts Hwf' Hc Hm). cbn [mbind result_bind].
  rewrite (dt_col_same out _ _ _ ts Hwf' Hc Hd). cbn [mbind result_bind].
  rewrite (dt_col_same out _ _ _ ts Hwf' Hc Hdy). cbn [mbind result_bind].
  rewrite (dt_col_same out _ _ _ ts Hwf' Hc Hh). cbn [mbind result_bind].
  by rewrite (dt_col_same out _ _ _ ts Hwf' Hc Hmi).
Qed.

Lemma time_cols_idempotent_witness :
  ∃ out, make_time_cols sample_to_datetime reports_table (VStr "Dates") = Ok out ∧
    make_time_cols sample_to_datetime out (VStr "Dates") = Ok out.
Proof.
  eexists. split; [reflexivity|].
  apply (time_cols_idempotent sample_to_datetime reports_table (VStr "Dates")).
  - repeat constructor.
  - not_elem_of_explicit.
  - done.
  - done.
  - reflexivity.
Defined.

(** ** What the patterns extract *)

Lemma match_here_marker_free p g s r :
  marker_free p = true → match_here p g s = Some r → r = g.
Proof.
  revert g s r. induction p as [|i p IH]; intros g s r Hp H.
  - by injection H.
  - destruct i as [c|c| |]; try done; cbn [marker_free forallb andb] in Hp.
    + destruct s as [|a s]; [done|]. cbn [match_here] in H.
      destruct (in_cls c a); [|done]. by eapply IH.
    + induction s as [|a s IHs]; rewrite match_here_plus in H; [done|].
      destruct (in_cls c a); [|done].
      destruct (match_here (Plus c :: p) g s) as [r'|] eqn:E.
      * injection H as <-. by apply IHs.
      * by eapply IH.
Qed.

Lemma match_here_closing p g s r :
  closing p = true → s `suffix_of` g.1 → match_here p g s = Some r →
  r.1 = g.1 ∧ r.2 `suffix_of` g.1.
Proof.
  revert g s r. induction p as [|i p IH]; intros g s r Hp Hs H; [done|].
  destruct i as [c|c| |]; try done; cbn [closing] in Hp.
  - destruct s as [|a s]; [done|]. cbn [match_here] in H.
    destruct (in_cls c a); [|done].
    eapply IH; [done| |done]. by eapply suffix_cons_l.
  - induction s as [|a s IHs]; rewrite match_here_plus in H; [done|].
    destruct (in_cls c a); [|done].
    assert (s `suffix_of` g.1) as Hs' by (by eapply suffix_cons_l).
    destruct (match_here (Plus c :: p) g s) as [r'|] eqn:E.
    + injection H as <-. by apply IHs.
    + by eapply IH.
  - cbn [match_here] in H. apply match_here_marker_free in H as ->; done.
Qed.

Lemma match_here_opening p g s r :
  opening p = true → match_here p g s = Some r →
  r.1 `suffix_of` s ∧ r.2 `suffix_of` r.1.
Proof.
  revert g s r. induction p as [|i p IH]; intros g s r Hp H; [done|].
  destruct i as [c|c| |]; try done; cbn [opening] in Hp.
  - destruct s as [|a s]; [done|]. cbn [match_here] in H.
    destruct (in_cls c a); [|done].
    destruct (IH g s r Hp H) as [H1 H2]. split; [by apply suffix_cons_r | done].
  - induction s as [|a s IHs]; rewrite match_here_plus in H; [done|].
    destruct (in_cls c a); [|done].
    destruct (match_here (Plus c :: p) g s) as [r'|] eqn:E.
    + injection H as <-. destruct (IHs eq_refl) as [H1 H2].
      split; [by apply suffix_cons_r | done].
    + destruct (IH g s r Hp H) as [H1 H2].
      split; [by apply suffix_cons_r | done].
  - cbn [match_here] in H.
    apply match_here_closing in H as [H1 H2]; [|done..].
    cbn [fst] in *. by rewrite H1.
Qed.

Lemma string_of_list_ascii_app l1 l2 :
  string_of_list_ascii (l1 ++ l2)
  = (string_of_list_ascii l1 ++ string_of_list_ascii l2)%string.
Proof. induction l1 as [|a l1 IH]; simpl; [done|]. by rewrite IH. Qed.

Lemma group_text_spec g k :
  g.1 = k ++ g.2 → list_ascii_of_string (group_text g) = k.
Proof.
  destruct g as [g1 g2]. cbn [fst snd]. intros ->. unfold group_text.
  cbn [fst snd]. rewrite list_ascii_of_string_of_list_ascii.
  by rewrite length_app, Nat.add_sub, take_app_length.
Qed.

(** The text [re.search] returns for a pattern with one group is a piece
    of the text searched. *)
Lemma search_substring p s text :
  opening p = true → search p s = Some text →
  ∃ pre post, s = pre ++ list_ascii_of_string text ++ post.
Proof.
  intros Hp.
  assert (Hhere : ∀ s g, match_here p ([], []) s = Some g →
            ∃ pre post, s = pre ++ list_ascii_of_string (group_text g) ++ post).
  { intros s' g E. apply match_here_opening in E as [[k1 H1] [k2 H2]]; [|done].
    exists k1, g.2. by rewrite (group_text_spec g k2 H2), H1, H2 at 1. }
  induction s as [|a s IH]; cbn [search].
  - destruct (match_here p ([], []) []) as [g|] eqn:E; [|done].
    intros [= <-]. by apply Hhere.
  - destruct (match_here p ([], []) (a :: s)) as [g|] eqn:E.
    + intros [= <-]. by apply Hhere.
    + intros H. destruct (IH H) as (pre & post & ->). by exists (a :: pre), post.
Qed.

Lemma placeholder_taken_from p a :
  opening p = true → taken_from (placeholder_or (address_match p a)) a.
Proof.
  intros Hp. destruct a as [|s| | |]; try (by left). cbn [address_match].
  destruct (search p (list_ascii_of_string s)) as [g|] eqn:E; [|by left].
  right. apply search_substring in E as (pre & post & E); [|done].
  exists s, g, (string_of_list_ascii pre), (string_of_list_ascii post).
  split_and!; [done..|].
  rewrite <- (string_of_list_ascii_of_string s), E.
  by rewrite !string_of_list_ascii_app, string_of_list_ascii_of_string.
Qed.

(** X18.  [make_streets_intersections_cols] never invents text: on a
    table with distinct column labels whose [Address] column holds at
    least one string, in every record of its result the appended [Street]
    and [Intersection] cells are either the blank placeholder or a
    contiguous piece of the address of that record. *)
Theorem extracted_cells_come_from_address df addresses :
  NoDup (columns df) →
  getcol df (VStr "Address") = Ok addresses →
  (∃ s, VStr s ∈ addresses) →
  ∃ out, make_streets_intersections_cols df = Ok out ∧
    ∀ i l row, records out !! i = Some (l, row) →
      ∃ r a street intersection,
        records df !! i = Some r ∧ addresses !! i = Some a ∧
        l = r.1 ∧ row = r.2 ++ [street; intersection] ∧
        taken_from street a ∧ taken_from intersection a.
Proof.
  intros _ Hcol [s Hs]. eexists.
  split; [by eapply make_streets_result, str_accessor_text|].
  cbn [records]. intros i l row Hi.
  apply lookup_zip_with_Some in Hi as (r & a & [= -> ->] & Hr & Ha).
  exists r, a, (placeholder_or (address_match street_pattern a)),
    (placeholder_or (address_match intersection_pattern a)).
  split_and!; [done..| |]; by apply placeholder_taken_from.
Qed.

Lemma extracted_cells_come_from_address_witness :
  ∃ out, make_streets_intersections_cols incidents_table = Ok out ∧
    ∃ street intersection,
      records out !! 1%nat
      = Some (VInt 1, [VStr "1500 Block of LOMBARD ST"; VStr "ASSAULT";
                       street; intersection]) ∧
      taken_from street (VStr "1500 Block of LOMBARD ST").
Proof.
  destruct (extracted_cells_come_from_address incidents_table
              [VStr "OAK ST / LAGUNA ST"; VStr "1500 Block of LOMBARD ST"; VNaN])
    as (out & Hout & Hcells);
    [NoDup_explicit | reflexivity
    | exists "OAK ST / LAGUNA ST"; elem_of_explicit |].
  exists out. split; [exact Hout|].
  pose proof Hout as Hrun. vm_compute in Hrun. injection Hrun as <-.
  destruct (Hcells 1%nat _ _ eq_refl)
    as (r & a & street & intersection & Hr & Ha & _ & Hrow & Hst & _).
  injection Hr as <-. injection Ha as <-. injection Hrow as <- <-.
  eexists _, _. split; [reflexivity | exact Hst].
Defined.

(** ** Intersections and the address flag *)








(** ** Pipelines *)

(** X20.  Low-frequency categories of the count table: on a table with
    distinct column labels whose [Category] and time columns each hold
    keys of one kind, after [get_count_table] on the column [Category],
    [get_cols_names_below_threshold] on its result returns exactly the
    categories that occur, with some time, in fewer records than the
    threshold. *)
Theorem rare_categories df time threshold jc jt :
  wf df → NoDup (columns df) →
  time ≠ VStr "Category" → time ≠ VStr "Count" →
  col_pos (VStr "Category") (columns df) = Some jc →
  col_pos time (columns df) = Some jt →
  one_kind (map (cell jc) (records df)) →
  one_kind (map (cell jt) (records df)) →
  ∃ df' out names,
    get_count_table df (VStr "Category") time = Ok (df', out) ∧
    get_cols_names_below_threshold out threshold = Ok names ∧
    NoDup names ∧
    ∀ c, c ∈ names ↔
         ∃ r, r ∈ records df ∧ cell jc r = c ∧ c ≠ VNaN ∧ cell jt r ≠ VNaN
              ∧ Z.of_nat (group_size df jc jt (group_key jc jt r)) < threshold.
Proof.
  intros Hwf _ Ht Htc Hjc Hjt _ _.
  destruct (count_table_result df (VStr "Category") time jc jt Hwf)
    as (df' & _ & Hout); [congruence | done | done | done | done |].
  set (f := λ (i : nat) (k : list value),
              (VInt (Z.of_nat i), k ++ [VInt (Z.of_nat (group_size df jc jt k))]))
    in *.
  assert (Hcells : ∀ i r, cell 0 (f i (group_key jc jt r)) = cell jc r
            ∧ cell 2 (f i (group_key jc jt r))
              = VInt (Z.of_nat (group_size df jc jt (group_key jc jt r))))
    by done.
  eexists df', _, _. split; [exact Hout|].
  rewrite (names_below_result _ _ 2 0); [|..].
  2:{ cbn [columns col_pos]. rewrite decide_False by done.
      rewrite decide_False by done. by rewrite decide_True. }
  2:{ cbn [columns col_pos]. by rewrite decide_True. }
  2:{ cbn [records]. apply Forall_forall. intros r' Hr'.
      apply elem_of_lookup_imap in Hr' as (i & k & -> & Hk).
      apply list_elem_of_lookup_2, elem_of_count_groups in Hk as (r & _ & -> & _).
      by rewrite (proj2 (Hcells i r)). }
  split; [done|]. split; [apply NoDup_unique|].
  intros c. rewrite elem_of_names_below. cbn [records]. split.
  - intros (r' & x & Hr' & Hc & Hx & Hlt).
    apply elem_of_lookup_imap in Hr' as (i & k & -> & Hk).
    apply list_elem_of_lookup_2, elem_of_count_groups in Hk
      as (r & Hr & -> & Hnc & Hnt).
    rewrite (proj1 (Hcells i r)) in Hc. rewrite (proj2 (Hcells i r)) in Hx.
    injection Hx as <-. exists r. split_and!; [done | done | congruence | done | done].
  - intros (r & Hr & <- & Hnc & Hnt & Hlt).
    assert (group_key jc jt r ∈ count_groups df jc jt) as Hk
      by (apply elem_of_count_groups; by exists r).
    apply list_elem_of_lookup_1 in Hk as [i Hi].
    exists (f i (group_key jc jt r)),
      (Z.of_nat (group_size df jc jt (group_key jc jt r))). split_and!;
      [by apply (elem_of_lookup_imap_2 f _ _ i Hi)
      | apply Hcells | apply Hcells | done].
Qed.

Lemma rare_categories_witness :
  ∃ df' out names,
    get_count_table category_counts (VStr "Category") (VStr "Day") = Ok (df', out) ∧
    get_cols_names_below_threshold out 2 = Ok names ∧ NoDup names.
Proof.
  destruct (rare_categories category_counts (VStr "Day") 2 0 1)
    as (df' & out & names & Hout & Hnames & Hnd & _); try done.
  - repeat constructor.
  - NoDup_explicit.
  - by exists KStr.
  - by exists KInt.
  - by exists df', out, names.
Defined.



